(** * Gossip spreading-time estimators: a shallow embedding

    This development embeds the four estimators of
    [gossip_spreading_util.py] and proves properties of them:

    - [EstimateSynchronousGossipTime] and [FastEstimateSynchronousGossipTime]
      (round based), and
    - [EstimateAsynchronousGossipTime] and
      [FastEstimateAsynchronousGossipTime] (event based, with a heap of
      pending activations).

    Modelling choices.

    - Node identifiers are Python integers, hence [Z]; [neighbor_list] is a
      [list (list Z)] and is indexed the way a Python list is (a negative
      index counts from the end, anything else out of range raises
      [IndexError]).
    - Python sets are [gset Z].  The order in which a [for] loop walks a set
      is not fixed by the language, so the loops take the order as a
      parameter [walk], constrained only to enumerate the set.
    - Floating-point numbers ([failure_probability], [end_criteria], event
      times) are finite, hence rationals in canonical form, [Qc].  Two float
      operations round.  The additions [current_time + PoissonSample(1.0)]
      are covered by the oracle below, which gives each sample as the
      addition uses it.  The product [end_criteria * N] of the threshold
      test is computed exactly in [reached]; [exact_threshold] says that
      the float product is exact as well.
    - The process-wide generator [np.random] is replaced by an oracle that is
      indexed by the decision a draw serves: the round and the active node
      in the synchronous estimators, the popped event in the asynchronous
      ones.  A uniform choice is a natural number reduced modulo the length
      of the list; an inter-arrival sample is a rational (the draw [0.0],
      whose sample is infinite, is left out).
    - [np.random.choice] returns an entry of the list as an integer;
      NumPy does when the entries fit in 64 bits ([int64_entries]).
    - [heapq] is modelled by the list of the pending events, from which
      [heappop] takes a least one for the order of Python tuples.
    - [while True] loops are run with fuel; a call either returns, raises,
      or runs out of fuel. *)

From Stdlib Require Import ZArith QArith Qcanon Qround Lia Lqa.
From stdpp Require Import base gmap sets list numbers.

Open Scope Z_scope.

(** ** Outcomes *)

(** The two exceptions the code can raise: [IndexError] from indexing a list
    out of range or popping an empty heap, [ValueError] from
    [np.random.choice] on an empty list. *)
Inductive exn : Set := IndexError | ValueError.

Inductive res (A : Type) : Type :=
| Ok (a : A)
| Err (e : exn).
Arguments Ok {A} a.
Arguments Err {A} e.

Global Instance res_bind : MBind res := λ A B k m,
  match m with
  | Ok a => k a
  | Err e => Err e
  end.

(** What a call does when it is given [fuel] loop iterations. *)
Inductive outcome (A : Type) : Type :=
| Returned (a : A)
| Raised (e : exn)
| OutOfFuel.
Arguments Returned {A} a.
Arguments Raised {A} e.
Arguments OutOfFuel {A}.

(** One iteration of a [while True] loop. *)
Inductive step_result (St A : Type) : Type :=
| Next (s : St)
| Done (a : A)
| Fail (e : exn).
Arguments Next {St A} s.
Arguments Done {St A} a.
Arguments Fail {St A} e.

Fixpoint run {St A : Type} (step : St → step_result St A) (fuel : nat) (s : St)
  : outcome A :=
  match fuel with
  | O => OutOfFuel
  | S fuel' =>
      match step s with
      | Next s' => run step fuel' s'
      | Done a => Returned a
      | Fail e => Raised e
      end
  end.

(** The state reached after [n] iterations, when none of them left the
    loop. *)
Fixpoint iterate {St A : Type} (step : St → step_result St A) (n : nat) (s : St)
  : option St :=
  match n with
  | O => Some s
  | S n' =>
      match step s with
      | Next s' => iterate step n' s'
      | _ => None
      end
  end.

(** ** Python and NumPy primitives *)

(** [l[i]] *)
Definition py_getitem {A : Type} (l : list A) (i : Z) : res A :=
  let j := if bool_decide (i < 0) then i + Z.of_nat (length l) else i in
  if bool_decide (0 ≤ j) then
    match l !! Z.to_nat j with
    | Some x => Ok x
    | None => Err IndexError
    end
  else Err IndexError.

(** [np.random.choice(a)], the draw being [r] *)
Definition np_random_choice (a : list Z) (r : nat) : res Z :=
  match a !! (r mod length a)%nat with
  | Some x => Ok x
  | None => Err ValueError
  end.

(** [len(infected_node_set) >= end_criteria * n] *)
Definition reached (infected_node_set : gset Z) (end_criteria : Qc) (n : Z)
  : bool :=
  bool_decide (end_criteria * Qc_of_Z n
               ≤ Qc_of_Z (Z.of_nat (size infected_node_set)))%Qc.

(** [len(neighbor_list)] *)
Definition len {A : Type} (l : list A) : Z := Z.of_nat (length l).

(** [set(l).issubset(s)] *)
Definition issubset (l : list Z) (s : gset Z) : bool :=
  bool_decide (list_to_set l ⊆ s).

(** ** Synchronous estimators *)

(** The draws of a synchronous run: [rand_at t v] is the value of
    [np.random.rand()] drawn for node [v] in the round that starts with
    counter [t], and [choice_at t v] the draw of [np.random.choice]. *)
Record sync_source : Type := {
  rand_at : nat → Z → Qc;
  choice_at : nat → Z → nat
}.

Section Synchronous.
Variable walk : nat → gset Z → list Z.
Variable rnd : sync_source.
Variable neighbor_list : list (list Z).
Variable failure_probability : Qc.
Variable end_criteria : Qc.

(** The body of [if np.random.rand() >= failure_probability]: the node
    pushed to, if the push is attempted. *)
Definition push_attempt (t : nat) (active_node : Z) : res (option Z) :=
  if bool_decide (failure_probability ≤ rand_at rnd t active_node)%Qc then
    neighbors ← py_getitem neighbor_list active_node;
    chosen_node ← np_random_choice neighbors (choice_at rnd t active_node);
    Ok (Some chosen_node)
  else Ok None.

(** The [for active_node in infected_node_set] loop of the exact
    estimator, accumulating [newly_infected_node_set]. *)
Fixpoint sync_for (t : nat) (nodes : list Z)
    (newly_infected_node_set : gset Z) : res (gset Z) :=
  match nodes with
  | [] => Ok newly_infected_node_set
  | active_node :: rest =>
      pushed ← push_attempt t active_node;
      match pushed with
      | Some chosen_node =>
          sync_for t rest ({[chosen_node]} ∪ newly_infected_node_set)
      | None => sync_for t rest newly_infected_node_set
      end
  end.

(** One pass of the [while True] body: state is [(t, infected_node_set)]. *)
Definition sync_step (st : nat * gset Z) : step_result (nat * gset Z) nat :=
  let '(t, infected_node_set) := st in
  match sync_for t (walk t infected_node_set) ∅ with
  | Err e => Fail e
  | Ok newly_infected_node_set =>
      let infected_node_set := infected_node_set ∪ newly_infected_node_set in
      let t := S t in
      if reached infected_node_set end_criteria (len neighbor_list)
      then Done t
      else Next (t, infected_node_set)
  end.

Definition EstimateSynchronousGossipTime (fuel : nat) (source_node : Z)
    (number_of_nodes : Z) : outcome nat :=
  run sync_step fuel (O, {[source_node]}).

(** Loop-carried state of the [for active_node in useful_node_set] loop of
    the fast estimator. *)
Record fast_acc : Type := FastAcc {
  acc_infected : gset Z;
  acc_useless : gset Z;
  acc_newly : gset Z
}.

Fixpoint fast_for (t : nat) (nodes : list Z) (acc : fast_acc)
  : res fast_acc :=
  match nodes with
  | [] => Ok acc
  | active_node :: rest =>
      neighbors ← py_getitem neighbor_list active_node;
      if issubset neighbors (acc_infected acc) then
        fast_for t rest
          (FastAcc (acc_infected acc) ({[active_node]} ∪ acc_useless acc)
             (acc_newly acc))
      else
        pushed ← push_attempt t active_node;
        match pushed with
        | Some chosen_node =>
            fast_for t rest
              (FastAcc ({[chosen_node]} ∪ acc_infected acc) (acc_useless acc)
                 ({[chosen_node]} ∪ acc_newly acc))
        | None => fast_for t rest acc
        end
  end.

(** State of the fast loop: counter, infected set, useful set. *)
Record fast_state : Type := FastState {
  fs_t : nat;
  fs_infected : gset Z;
  fs_useful : gset Z
}.

Definition fast_sync_step (st : fast_state)
  : step_result fast_state nat :=
  match fast_for (fs_t st) (walk (fs_t st) (fs_useful st))
          (FastAcc (fs_infected st) ∅ ∅) with
  | Err e => Fail e
  | Ok acc =>
      let useful_node_set := fs_useful st ∪ acc_newly acc in
      let useful_node_set := useful_node_set ∖ acc_useless acc in
      let t := S (fs_t st) in
      if reached (acc_infected acc) end_criteria (len neighbor_list)
      then Done t
      else Next (FastState t (acc_infected acc) useful_node_set)
  end.

Definition FastEstimateSynchronousGossipTime (fuel : nat) (source_node : Z)
    (number_of_nodes : Z) : outcome nat :=
  run fast_sync_step fuel (FastState O {[source_node]} {[source_node]}).
End Synchronous.

(** ** Asynchronous estimators *)

(** An event is [(time, node)]; Python compares such tuples
    lexicographically. *)
Definition event : Type := Qc * Z.

(** [a <= b] on tuples: by time, then by node. *)
Definition event_le (a b : event) : Prop :=
  (a.1 < b.1)%Qc ∨ (a.1 = b.1 ∧ a.2 ≤ b.2).

Global Instance event_le_dec : RelDecision event_le.
Proof. intros a b. unfold event_le. apply _. Defined.

(** [heapq] is library code: the heap is modelled by the list of its pending
    events, in any order.  [least e h] is a least event of [e :: h]. *)
Fixpoint least (e : event) (h : list event) : event :=
  match h with
  | [] => e
  | e' :: h' => if bool_decide (event_le e' (least e h')) then e' else least e h'
  end.

(** [h] without one occurrence of [e]. *)
Fixpoint remove_one (e : event) (h : list event) : list event :=
  match h with
  | [] => []
  | e' :: h' => if bool_decide (e' = e) then h' else e' :: remove_one e h'
  end.

(** [heapq.heappop(h)]: a least event and what is left; [IndexError] on an
    empty heap. *)
Definition heappop (h : list event) : res (event * list event) :=
  match h with
  | [] => Err IndexError
  | e :: h' => let m := least e h' in Ok (m, remove_one m h)
  end.

(** [heapq.heappush(h, e)] *)
Definition heappush (h : list event) (e : event) : list event := e :: h.

Definition PushAsynchronousEvent (event_heap : list event) (time : Qc)
    (node : Z) : list event :=
  heappush event_heap (time, node).

(** The draws of an asynchronous run.  [rand_ev] and [choice_ev] are the
    failure draw and the neighbour draw made for the popped event.  The
    three others are the inter-arrival samples [-log(rand())] as the
    additions [current_time + PoissonSample(1.0)] use them.  Those are float
    additions, which round: for the sample [x] taken at the popped event
    [ev], of time [t], [log_self ev] is the rational [d] for which the float
    [t + x] is exactly [t + d].  It is [x] when the addition is exact and
    [0] when [x] is too small to change [t]; it is not negative when [x] is
    not.  [log_chosen ev] is the same for the sample of the chosen node, and
    [log_first] for the sample taken before the loop, which is added to [0]
    and is therefore the sample itself.  With these values the exact sums
    of the model are the floats the code computes. *)
Record async_source : Type := {
  log_first : Qc;
  rand_ev : event → Qc;
  choice_ev : event → nat;
  log_self : event → Qc;
  log_chosen : event → Qc
}.

(** [PoissonSample(rate)], [neg_log] standing for [-np.log(np.random.rand())]
    (the estimators call it with the values of [async_source]) *)
Definition PoissonSample (neg_log : Qc) (rate : Qc) : Qc := (neg_log / rate)%Qc.

Section Asynchronous.
Variable rnd : async_source.
Variable neighbor_list : list (list Z).
Variable failure_probability : Qc.
Variable end_criteria : Qc.

(** The push of one event: the infected set afterwards, and the chosen
    node when [uninf_node_chosen] holds. *)
Definition async_push (ev : event) (infected_node_set : gset Z)
  : res (gset Z * option Z) :=
  if bool_decide (failure_probability ≤ rand_ev rnd ev)%Qc then
    neighbors ← py_getitem neighbor_list ev.2;
    chosen_node ← np_random_choice neighbors (choice_ev rnd ev);
    let uninf_node_chosen := bool_decide (chosen_node ∉ infected_node_set) in
    Ok ({[chosen_node]} ∪ infected_node_set,
        if uninf_node_chosen then Some chosen_node else None)
  else Ok (infected_node_set, None).

(** What follows the push: the threshold test against [n] nodes, then the
    rescheduling. *)
Definition async_finish (n : Z) (ev : event) (event_heap : list event)
    (pushed : gset Z * option Z)
  : step_result (gset Z * list event) Qc :=
  let '(infected_node_set, fresh) := pushed in
  let current_time := ev.1 in
  let active_node := ev.2 in
  if reached infected_node_set end_criteria n then Done current_time
  else
    let event_heap :=
      PushAsynchronousEvent event_heap
        (current_time + PoissonSample (log_self rnd ev) 1)%Qc active_node in
    let event_heap :=
      match fresh with
      | Some chosen_node =>
          PushAsynchronousEvent event_heap
            (current_time + PoissonSample (log_chosen rnd ev) 1)%Qc
            chosen_node
      | None => event_heap
      end in
    Next (infected_node_set, event_heap).

(** State is [(infected_node_set, event_heap)]. *)
Definition async_step (st : gset Z * list event)
  : step_result (gset Z * list event) Qc :=
  let '(infected_node_set, event_heap) := st in
  match heappop event_heap with
  | Err e => Fail e
  | Ok (ev, event_heap) =>
      match async_push ev infected_node_set with
      | Err e => Fail e
      | Ok pushed => async_finish (len neighbor_list) ev event_heap pushed
      end
  end.

Definition async_init (source_node : Z) : gset Z * list event :=
  let t := 0%Qc in
  ({[source_node]},
   PushAsynchronousEvent [] (t + PoissonSample (log_first rnd) 1)%Qc
     source_node).

Definition EstimateAsynchronousGossipTime (fuel : nat) (source_node : Z)
    (number_of_nodes : Z) : outcome Qc :=
  run async_step fuel (async_init source_node).

Definition fast_async_step (number_of_nodes : Z)
    (st : gset Z * list event) : step_result (gset Z * list event) Qc :=
  let '(infected_node_set, event_heap) := st in
  match heappop event_heap with
  | Err e => Fail e
  | Ok (ev, event_heap) =>
      match py_getitem neighbor_list ev.2 with
      | Err e => Fail e
      | Ok neighbors =>
          if issubset neighbors infected_node_set
          then Next (infected_node_set, event_heap)
          else
            match async_push ev infected_node_set with
            | Err e => Fail e
            | Ok pushed => async_finish number_of_nodes ev event_heap pushed
            end
      end
  end.

Definition FastEstimateAsynchronousGossipTime (fuel : nat) (source_node : Z)
    (number_of_nodes : Z) : outcome Qc :=
  run (fast_async_step number_of_nodes) fuel (async_init source_node).
End Asynchronous.

(** ** Well-formed topologies *)

(** [v] indexes [neighbor_list] without raising. *)
Definition in_range (neighbor_list : list (list Z)) (v : Z) : bool :=
  bool_decide (- len neighbor_list ≤ v < len neighbor_list).

(** Every neighbour list is non-empty and holds only valid indices. *)
Definition well_formed (neighbor_list : list (list Z)) : bool :=
  forallb
    (λ nb, negb (bool_decide (nb = [])) && forallb (in_range neighbor_list) nb)
    neighbor_list.

(** Every neighbour of [v] is in [X]: what [set(neighbor_list[v]).issubset(X)]
    tests. *)
Definition saturated (neighbor_list : list (list Z)) (v : Z) (X : gset Z)
  : Prop :=
  ∀ nb c, py_getitem neighbor_list v = Ok nb → c ∈ nb → c ∈ X.

(** The order of a [for] loop over a set enumerates the set. *)
Definition enumerates (walk : nat → gset Z → list Z) : Prop :=
  ∀ t X, walk t X ≡ₚ elements X.

(** ** Invariants of the loops *)

(** Every node of [X] indexes [neighbor_list]. *)
Definition all_in_range (nl : list (list Z)) (X : gset Z) : Prop :=
  ∀ v, v ∈ X → in_range nl v = true.

(** The useful set holds only infected nodes, and an infected node outside
    it has no uninfected neighbour. *)
Definition frontier_inv (nl : list (list Z)) (infected useful : gset Z)
  : Prop :=
  all_in_range nl infected ∧ useful ⊆ infected ∧
  ∀ v, v ∈ infected → v ∉ useful → saturated nl v infected.

(** Every pending event is for a node that indexes [neighbor_list]. *)
Definition heap_ok (nl : list (list Z)) (h : list event) : Prop :=
  ∀ e, e ∈ h → in_range nl e.2 = true.

(** The event that replaces [ev] when its node is rescheduled. *)
Definition again (rnd : async_source) (ev : event) : event :=
  ((ev.1 + PoissonSample (log_self rnd ev) 1)%Qc, ev.2).


(** How many times at most an event [d] of a node that is only rescheduled
    can be popped before the event [m], when each rescheduling moves it by
    at least [gap]. *)
Definition lag (gap : Qc) (m d : event) : nat :=
  if bool_decide (event_le d m)
  then S (Z.to_nat (Qfloor ((m.1 - d.1) / gap)%Qc))
  else O.

Definition budget (gap : Qc) (m : event) (D : list event) : nat :=
  sum_list (lag gap m <$> D).

(** ** Reachability *)

(** [v] is reached from [s] by following entries of the neighbour lists. *)
Inductive reachable (nl : list (list Z)) (s : Z) : Z → Prop :=
| reachable_source : reachable nl s s
| reachable_edge u nb v :
    reachable nl s u → py_getitem nl u = Ok nb → v ∈ nb → reachable nl s v.

(** Every node reached from [s] indexes [neighbor_list] and has a non-empty
    neighbour list. *)
Definition sound_from (nl : list (list Z)) (s : Z) : Prop :=
  ∀ v, reachable nl s v → ∃ nb, py_getitem nl v = Ok nb ∧ nb ≠ [].

(** The invariant of the fast synchronous loop started at [s]: the infected
    nodes are reached from [s], the useful set holds only infected nodes,
    and an infected node outside it has no uninfected neighbour. *)
Definition frontier_from (nl : list (list Z)) (s : Z)
    (infected useful : gset Z) : Prop :=
  (∀ v, v ∈ infected → reachable nl s v) ∧ useful ⊆ infected ∧
  ∀ v, v ∈ infected → v ∉ useful → saturated nl v infected.

(** The exact heap [H] is the fast heap [G] together with the events [D] of
    nodes the fast estimator has stopped scheduling; those nodes have no
    uninfected neighbour, and the threshold is not met yet.  Every pending
    event is for a node reached from the source [s]. *)
Record agree (nl : list (list Z)) (ec : Qc) (s : Z) (infected : gset Z)
    (H G D : list event) : Prop := Agree {
  agree_perm : H ≡ₚ G ++ D;
  agree_ok : ∀ e, e ∈ H → reachable nl s e.2;
  agree_dead : ∀ d, d ∈ D → saturated nl d.2 infected;
  agree_below : reached infected ec (len nl) = false
}.

(** [X] holds the source and only nodes reached from it. *)
Definition spread (nl : list (list Z)) (s : Z) (X : gset Z) : Prop :=
  s ∈ X ∧ ∀ v, v ∈ X → reachable nl s v.

(** [R] holds every neighbour of each of its nodes. *)
Definition closed (nl : list (list Z)) (R : gset Z) : bool :=
  forallb
    (λ u, match py_getitem nl u with
          | Ok nb => forallb (λ v, bool_decide (v ∈ R)) nb
          | Err _ => true
          end)
    (elements R).

(** The nodes of the pending events. *)
Definition pending (h : list event) : list Z := h.*2.

(** ** Floats and machine integers *)

(** [q] is a binary64 float: [m * 2^e] with [|m| < 2^53] and
    [-1074 <= e <= 971], written here as [m * 2^b / 2^a]. *)
Definition binary64 (q : Qc) : Prop :=
  ∃ (m : Z) (a b : nat),
    Z.abs m < 2 ^ 53 ∧ (a ≤ 1074)%nat ∧ (b ≤ 971)%nat ∧
    (q * Qc_of_Z (2 ^ Z.of_nat a) = Qc_of_Z (m * 2 ^ Z.of_nat b))%Qc.

(** The float product [end_criteria * n] of the threshold test is exact:
    [end_criteria] is a float, the integer [n] becomes a float without
    rounding, and their product is a float.  The float multiplication
    returns the float nearest to the product, which is then the product
    itself, and the comparison of [len(infected_node_set)] with it is the
    one [reached] makes. *)
Definition exact_threshold (end_criteria : Qc) (n : Z) : Prop :=
  binary64 end_criteria ∧ Z.abs n ≤ 2 ^ 53 ∧
  binary64 (end_criteria * Qc_of_Z n)%Qc.

(** Every entry of the neighbour lists fits in a 64-bit signed integer.
    [np.random.choice] turns the list it is given into an array; with such
    entries the array holds integers and the chosen entry indexes
    [neighbor_list] as the Python integer does.  (An entry that does not
    fit can turn the array into floats, and a float does not index a
    list.) *)
Definition int64_entries (neighbor_list : list (list Z)) : bool :=
  forallb (forallb (λ c, bool_decide (- 2 ^ 63 ≤ c < 2 ^ 63))) neighbor_list.

(** ** Inputs used in examples *)

(** The path 0 - 1 - 2 - 3. *)
Definition path4 : list (list Z) := [[1]; [0; 2]; [1; 3]; [2]].

(** The 4-cycle 0 - 1 - 2 - 3 - 0. *)
Definition cycle4 : list (list Z) := [[1; 3]; [0; 2]; [1; 3]; [2; 0]].

(** A walk in the order of [elements]. *)
Definition walk_elements (t : nat) (X : gset Z) : list Z := elements X.

(** Draws whose failure draw is always [u] and whose neighbour draw is
    always [k]. *)
Definition const_sync (u : Qc) (k : nat) : sync_source :=
  {| rand_at := λ _ _, u; choice_at := λ _ _, k |}.

(** Draws under which node [v] pushes to the entry of index [v] of its
    neighbour list (reduced modulo the length), with failure draw [1/2] and
    unit inter-arrival samples. *)
Definition by_index_async : async_source :=
  {| log_first := 1%Qc; rand_ev := λ _, Q2Qc (1 # 2);
     choice_ev := λ ev, Z.to_nat ev.2;
     log_self := λ _, 1%Qc; log_chosen := λ _, 1%Qc |}.

Definition by_index_sync : sync_source :=
  {| rand_at := λ _ _, Q2Qc (1 # 2); choice_at := λ _ v, Z.to_nat v |}.

(** Draws under which every push succeeds and goes to the first entry of the
    neighbour list. *)
Definition first_neighbour : sync_source := const_sync (Q2Qc (1 # 2)) 0.

(** Draws under which the first event is at time 1 and every later sample is
    too small for the float addition to move the time (as [2^-53] added to
    [1.0] is): a rescheduled event keeps the time of the event it follows. *)
Definition no_delay_async : async_source :=
  {| log_first := 1%Qc; rand_ev := λ _, Q2Qc (1 # 2);
     choice_ev := λ ev, Z.to_nat ev.2;
     log_self := λ _, 0%Qc; log_chosen := λ _, 0%Qc |}.

(** The path 0 - 1 - 2. *)
Definition path3 : list (list Z) := [[1]; [0; 2]; [1]].

(** Two edges 0 - 1 and 2 - 3 that are not connected to each other. *)
Definition two_pairs : list (list Z) := [[1]; [0]; [3]; [2]].

(** * Properties *)

(** ** The loop combinators *)

Lemma run_S {St A : Type} (step : St → step_result St A) fuel s :
  run step (S fuel) s =
  match step s with
  | Next s' => run step fuel s'
  | Done a => Returned a
  | Fail e => Raised e
  end.
Proof. done. Qed.

Lemma iterate_S {St A : Type} (step : St → step_result St A) n s :
  iterate step (S n) s =
  match step s with
  | Next s' => iterate step n s'
  | _ => None
  end.
Proof. done. Qed.

Lemma run_iterate {St A : Type} (step : St → step_result St A) n fuel s s' :
  iterate step n s = Some s' → run step (n + fuel) s = run step fuel s'.
Proof.
  revert s. induction n as [|n IH]; intros s; simpl.
  - by intros [= ->].
  - destruct (step s); try done. apply IH.
Qed.

Lemma iterate_add {St A : Type} (step : St → step_result St A) n m s s' :
  iterate step n s = Some s' →
  iterate step (n + m) s = iterate step m s'.
Proof.
  revert s. induction n as [|n IH]; intros s; simpl.
  - by intros [= ->].
  - destruct (step s); try done. apply IH.
Qed.

Lemma run_Returned_inv {St A : Type} (step : St → step_result St A) fuel s a :
  run step fuel s = Returned a →
  ∃ n s', (n < fuel)%nat ∧ iterate step n s = Some s' ∧ step s' = Done a.
Proof.
  revert s. induction fuel as [|fuel IH]; intros s; simpl; [done|].
  destruct (step s) as [s1| |] eqn:Hs; try done.
  - intros (n & s' & Hn & Hit & Hd)%IH.
    exists (S n), s'. split_and!; [lia| by simpl; rewrite Hs |done].
  - intros [= ->]. exists O, s. split_and!; [lia|done|done].
Qed.

(** ** The primitives *)

Lemma py_getitem_Ok_iff {A : Type} (l : list A) (i : Z) (x : A) :
  py_getitem l i = Ok x ↔
  (- len l ≤ i < len l) ∧
  l !! Z.to_nat (if bool_decide (i < 0) then i + len l else i) = Some x.
Proof.
  unfold py_getitem, len.
  set (j := if bool_decide (i < 0) then i + Z.of_nat (length l) else i).
  assert (Hj : j = i + Z.of_nat (length l) ∧ i < 0 ∨ j = i ∧ 0 ≤ i).
  { subst j. case_bool_decide; lia. }
  clearbody j. case_bool_decide as H0.
  - destruct (l !! Z.to_nat j) as [y|] eqn:E.
    + apply lookup_lt_Some in E. split.
      * intros [= ->]. split; [lia|done].
      * intros [_ [= ->]]. done.
    + split; [done|]. intros [_ ?]. done.
  - split; [done|]. intros [? _]. lia.
Qed.

Lemma py_getitem_in_range {A : Type} (l : list A) (i : Z) :
  (- len l ≤ i < len l) → ∃ x, py_getitem l i = Ok x.
Proof.
  intros Hi.
  destruct (l !! Z.to_nat (if bool_decide (i < 0) then i + len l else i))
    as [x|] eqn:E.
  - exists x. apply py_getitem_Ok_iff. done.
  - apply lookup_ge_None in E. unfold len in *. case_bool_decide; lia.
Qed.

Lemma py_getitem_Err {A : Type} (l : list A) (i : Z) e :
  py_getitem l i = Err e → e = IndexError ∧ ¬ (- len l ≤ i < len l).
Proof.
  intros He. split.
  - unfold py_getitem in He. repeat case_match; congruence.
  - intros [x Hx]%py_getitem_in_range. congruence.
Qed.

Lemma py_getitem_elem_of {A : Type} (l : list A) (i : Z) (x : A) :
  py_getitem l i = Ok x → x ∈ l.
Proof.
  intros [_ H]%py_getitem_Ok_iff. by eapply list_elem_of_lookup_2.
Qed.

Lemma np_random_choice_elem_of a r c :
  np_random_choice a r = Ok c → c ∈ a.
Proof.
  unfold np_random_choice. destruct (a !! _) eqn:E; [|done].
  intros [= <-]. by eapply list_elem_of_lookup_2.
Qed.

Lemma np_random_choice_nonempty a r :
  a ≠ [] → ∃ c, np_random_choice a r = Ok c ∧ c ∈ a.
Proof.
  intros Ha. unfold np_random_choice.
  destruct (a !! (r mod length a)%nat) as [c|] eqn:E.
  - exists c. split; [done|]. by eapply list_elem_of_lookup_2.
  - apply lookup_ge_None in E.
    assert (length a ≠ 0%nat) by (destruct a; simpl; [done|lia]).
    pose proof (Nat.mod_upper_bound r (length a)). lia.
Qed.

Lemma in_range_spec nl v :
  in_range nl v = true ↔ - len nl ≤ v < len nl.
Proof. unfold in_range. apply bool_decide_eq_true. Qed.

Lemma well_formed_getitem nl v nb :
  well_formed nl = true → py_getitem nl v = Ok nb →
  nb ≠ [] ∧ ∀ c, c ∈ nb → in_range nl c = true.
Proof.
  unfold well_formed. rewrite forallb_forall.
  intros Hwf Hnb%py_getitem_elem_of.
  apply list_elem_of_In, Hwf in Hnb.
  apply andb_true_iff in Hnb as [Hne Hall].
  split.
  - intros ->. done.
  - intros c Hc. rewrite forallb_forall in Hall.
    by apply Hall, list_elem_of_In.
Qed.

Lemma issubset_spec l s : issubset l s = true ↔ ∀ c, c ∈ l → c ∈ s.
Proof.
  unfold issubset. rewrite bool_decide_eq_true. set_solver.
Qed.

Lemma issubset_saturated nl v nb X :
  py_getitem nl v = Ok nb → issubset nb X = true ↔ saturated nl v X.
Proof.
  intros Hnb. rewrite issubset_spec. unfold saturated. split.
  - intros H nb' c Hnb' Hc. apply H. congruence.
  - intros H c Hc. by eapply H.
Qed.

Lemma saturated_mono nl v X Y : X ⊆ Y → saturated nl v X → saturated nl v Y.
Proof. intros HXY H nb c Hnb Hc. apply HXY. by eapply H. Qed.

Lemma reached_mono X Y ec n :
  X ⊆ Y → reached X ec n = true → reached Y ec n = true.
Proof.
  unfold reached. rewrite !bool_decide_eq_true. intros HXY H.
  eapply Qcle_trans; [exact H|].
  apply subseteq_size in HXY.
  unfold Qcle. simpl. rewrite <- Zle_Qle. lia.
Qed.

Lemma enumerates_elem_of walk t X v :
  enumerates walk → v ∈ walk t X ↔ v ∈ X.
Proof. intros H. rewrite (H t X). apply elem_of_elements. Qed.

Lemma enumerates_singleton walk t v :
  enumerates walk → walk t {[v]} = [v].
Proof.
  intros H. specialize (H t {[v]}). rewrite elements_singleton in H.
  by apply Permutation_singleton_r in H.
Qed.

Lemma walk_elements_enumerates : enumerates walk_elements.
Proof. intros t X. done. Qed.

(** ** Rounds of the exact synchronous estimator *)

Section SyncFacts.
Context (walk : nat → gset Z → list Z) (rnd : sync_source).
Context (nl : list (list Z)) (p ec : Qc).

Local Abbreviation push := (push_attempt rnd nl p).
Local Abbreviation exact_for := (sync_for rnd nl p).
Local Abbreviation exact_step := (sync_step walk rnd nl p ec).
Local Abbreviation quick_for := (fast_for rnd nl p).
Local Abbreviation quick_step := (fast_sync_step walk rnd nl p ec).

(** The accumulated set holds what was there and what the walked nodes
    pushed to; the loop fails as soon as one push attempt does. *)
Lemma sync_for_Ok t nodes newly newly' :
  exact_for t nodes newly = Ok newly' →
  (∀ v, v ∈ nodes → ∃ r, push t v = Ok r) ∧
  (∀ x, x ∈ newly' ↔ x ∈ newly ∨ ∃ v, v ∈ nodes ∧ push t v = Ok (Some x)).
Proof.
  revert newly. induction nodes as [|v nodes IH]; intros newly; simpl.
  - intros [= <-]. split; [by intros v ?%elem_of_nil|].
    intros x. split; [by left|]. intros [?|(v & ?%elem_of_nil & _)]; done.
  - destruct (push t v) as [[c|]|e] eqn:Hv; simpl; [| |done].
    + intros [Hall Hin]%IH. split.
      * intros w [->|Hw]%elem_of_cons; eauto.
      * intros x. rewrite Hin. split.
        -- intros [[->%elem_of_singleton|?]%elem_of_union|(w & Hw & Hp)].
           ++ right. exists v. split; [left|done].
           ++ by left.
           ++ right. exists w. split; [by right|done].
        -- intros [?|(w & [->|Hw]%elem_of_cons & Hp)].
           ++ left. apply elem_of_union. by right.
           ++ left. apply elem_of_union. left. apply elem_of_singleton.
              congruence.
           ++ right. eauto.
    + intros [Hall Hin]%IH. split.
      * intros w [->|Hw]%elem_of_cons; eauto.
      * intros x. rewrite Hin. split.
        -- intros [?|(w & Hw & Hp)]; [by left|].
           right. exists w. split; [by right|done].
        -- intros [?|(w & [->|Hw]%elem_of_cons & Hp)];
             [by left|congruence|right; eauto].
Qed.

Lemma sync_for_total t nodes newly :
  (∀ v, v ∈ nodes → ∃ r, push t v = Ok r) →
  ∃ newly', exact_for t nodes newly = Ok newly'.
Proof.
  revert newly. induction nodes as [|v nodes IH]; intros newly Hall; simpl.
  - eauto.
  - destruct (Hall v) as [r Hr]; [left|]. rewrite Hr. simpl.
    destruct r; apply IH; intros w Hw; apply Hall; by right.
Qed.

(** The counter a call returns is beyond the one the loop started with. *)
Lemma sync_run_counter fuel t infected r :
  run exact_step fuel (t, infected) = Returned r → (t < r)%nat.
Proof.
  revert t infected. induction fuel as [|fuel IH]; intros t infected;
    simpl; [done|].
  destruct (exact_for t (walk t infected) ∅); [|done].
  destruct (reached _ _ _).
  - intros [= <-]. lia.
  - intros ?%IH. lia.
Qed.

Lemma sync_step_singleton t s :
  enumerates walk →
  exact_step (t, {[s]}) =
  match push t s with
  | Err e => Fail e
  | Ok pushed =>
      let infected :=
        match pushed with
        | Some c => {[s]} ∪ ({[c]} ∪ ∅)
        | None => {[s]} ∪ ∅
        end in
      if reached infected ec (len nl) then Done (S t)
      else Next (S t, infected)
  end.
Proof.
  intros Hw. unfold sync_step. rewrite (enumerates_singleton _ _ _ Hw).
  simpl. destruct (push t s) as [[c|]|e]; done.
Qed.
End SyncFacts.

Lemma size_pos_of_elem (X : gset Z) (x : Z) : x ∈ X → (0 < size X)%nat.
Proof.
  intros Hx. destruct (size X) eqn:E; [|lia].
  apply size_empty_inv in E. apply E in Hx. by apply elem_of_empty in Hx.
Qed.

Lemma reached_nonempty (X : gset Z) (k : Z) :
  0 < k → (0 < size X)%nat → reached X (1 / Qc_of_Z k) k = true.
Proof.
  intros Hk HX. unfold reached. apply bool_decide_eq_true.
  assert (Qc_of_Z k ≠ 0%Qc) as Hk0.
  { rewrite <- Z2Qc_inj_0. intros ?%Z2Qc_inj. lia. }
  replace (1 / Qc_of_Z k * Qc_of_Z k)%Qc with (Qc_of_Z 1).
  - apply (proj1 (Z2Qc_inj_le 1 (Z.of_nat (size X)))). lia.
  - rewrite Z2Qc_inj_1. by field.
Qed.

(** ** C10: [number_of_nodes] *)

(** C10.  The exact and fast synchronous estimators and the exact
    asynchronous estimator do not depend on [number_of_nodes]: two calls that
    differ only in that argument give the same outcome, the threshold being
    computed from [len(neighbor_list)].  The fast asynchronous estimator
    reads it: on the 4-cycle the outcome changes with it. *)
Theorem number_of_nodes_only_read_by_fast_async :
  (∀ walk rnd nl p ec fuel s n1 n2,
     EstimateSynchronousGossipTime walk rnd nl p ec fuel s n1
     = EstimateSynchronousGossipTime walk rnd nl p ec fuel s n2) ∧
  (∀ walk rnd nl p ec fuel s n1 n2,
     FastEstimateSynchronousGossipTime walk rnd nl p ec fuel s n1
     = FastEstimateSynchronousGossipTime walk rnd nl p ec fuel s n2) ∧
  (∀ rnd nl p ec fuel s n1 n2,
     EstimateAsynchronousGossipTime rnd nl p ec fuel s n1
     = EstimateAsynchronousGossipTime rnd nl p ec fuel s n2) ∧
  FastEstimateAsynchronousGossipTime by_index_async cycle4 0%Qc
    (Q2Qc (3 # 4)) 5 0 4
  ≠ FastEstimateAsynchronousGossipTime by_index_async cycle4 0%Qc
      (Q2Qc (3 # 4)) 5 0 2.
Proof.
  split_and!; [reflexivity|reflexivity|reflexivity|].
  vm_compute. intros H. discriminate H.
Qed.

(** ** C4: the threshold [1/N] *)

(** C4, as stated, fails: on the 4-cycle with [end_criteria = 1/4] the
    exact synchronous estimator returns 1, and returns 0 for no fuel. *)
Lemma threshold_boundary_returns_zero_fails :
  EstimateSynchronousGossipTime walk_elements by_index_sync cycle4 0%Qc
    (1 / Qc_of_Z (len cycle4))%Qc 5 0 4 = Returned 1%nat ∧
  ∀ fuel,
    EstimateSynchronousGossipTime walk_elements by_index_sync cycle4 0%Qc
      (1 / Qc_of_Z (len cycle4))%Qc fuel 0 4 ≠ Returned 0%nat.
Proof.
  split; [by vm_compute|].
  intros fuel H. apply sync_run_counter in H. lia.
Qed.

(** C4 (amended).  With [end_criteria = 1/N], [N = len(neighbor_list) > 0],
    the exact synchronous estimator never returns 0: the threshold is first
    tested after one round, and the call returns 1 whenever the push attempt
    of the source in that round raises nothing. *)
Theorem threshold_boundary_returns_one walk rnd nl p s n fuel pushed :
  enumerates walk →
  nl ≠ [] →
  push_attempt rnd nl p 0 s = Ok pushed →
  EstimateSynchronousGossipTime walk rnd nl p (1 / Qc_of_Z (len nl))%Qc
    (S fuel) s n = Returned 1%nat ∧
  ∀ fuel',
    EstimateSynchronousGossipTime walk rnd nl p (1 / Qc_of_Z (len nl))%Qc
      fuel' s n ≠ Returned 0%nat.
Proof.
  intros Hw Hnl Hp. split.
  - unfold EstimateSynchronousGossipTime. cbn [run].
    rewrite sync_step_singleton by done. rewrite Hp. cbn zeta.
    rewrite reached_nonempty; [done| |].
    + unfold len. destruct nl; simpl; [done|lia].
    + destruct pushed; apply size_pos_of_elem with s;
        apply elem_of_union; left; by apply elem_of_singleton.
  - intros fuel' H. apply sync_run_counter in H. lia.
Qed.

Lemma threshold_boundary_returns_one_witness :
  EstimateSynchronousGossipTime walk_elements by_index_sync cycle4 0%Qc
    (1 / Qc_of_Z (len cycle4))%Qc 1 0 4 = Returned 1%nat ∧
  ∀ fuel',
    EstimateSynchronousGossipTime walk_elements by_index_sync cycle4 0%Qc
      (1 / Qc_of_Z (len cycle4))%Qc fuel' 0 4 ≠ Returned 0%nat.
Proof.
  apply (threshold_boundary_returns_one walk_elements by_index_sync cycle4
           0%Qc 0 4 0 (Some 1)).
  - exact walk_elements_enumerates.
  - discriminate.
  - vm_compute. reflexivity.
Defined.

(** ** The event heap *)

Lemma event_le_refl a : event_le a a.
Proof. right. split; [done|lia]. Qed.

Lemma event_le_total a b : event_le a b ∨ event_le b a.
Proof.
  unfold event_le. destruct (Qc_dec a.1 b.1) as [[?|?]|Heq]; [tauto|tauto|].
  destruct (Z.le_ge_cases a.2 b.2); [left|right]; right; split;
    done || lia.
Qed.

Lemma event_le_trans a b c : event_le a b → event_le b c → event_le a c.
Proof.
  unfold event_le. intros [Hab|[Hab Hab']] [Hbc|[Hbc Hbc']].
  - left. by eapply Qclt_trans.
  - left. by rewrite <- Hbc.
  - left. by rewrite Hab.
  - right. split; [congruence|lia].
Qed.

Lemma event_le_antisym a b : event_le a b → event_le b a → a = b.
Proof.
  unfold event_le. destruct a as [ta va], b as [tb vb]; simpl.
  intros [Hab|[Hab Hab']] [Hba|[Hba Hba']].
  - destruct (Qclt_not_le _ _ Hab). by apply Qclt_le_weak.
  - subst. by destruct (Qclt_not_eq _ _ Hab).
  - subst. by destruct (Qclt_not_eq _ _ Hba).
  - f_equal; [done|lia].
Qed.

Lemma least_elem_of e h : least e h ∈ e :: h.
Proof.
  induction h as [|e' h IH]; simpl; [left|].
  case_bool_decide.
  - right. left.
  - apply elem_of_cons in IH as [->|IH]; [left|right; by right].
Qed.

Lemma least_le e h x : x ∈ e :: h → event_le (least e h) x.
Proof.
  induction h as [|e' h IH]; simpl.
  - intros ->%list_elem_of_singleton. apply event_le_refl.
  - intros Hx. case_bool_decide as Hle.
    + apply elem_of_cons in Hx as [->|[->|Hx]%elem_of_cons].
      * eapply event_le_trans; [exact Hle|]. apply IH. left.
      * apply event_le_refl.
      * eapply event_le_trans; [exact Hle|]. apply IH. by right.
    + apply elem_of_cons in Hx as [->|[->|Hx]%elem_of_cons].
      * apply IH. left.
      * by destruct (event_le_total e' (least e h)).
      * apply IH. by right.
Qed.

Lemma remove_one_perm (m : event) h : m ∈ h → h ≡ₚ m :: remove_one m h.
Proof.
  induction h as [|e h IH]; simpl; [by intros ?%elem_of_nil|].
  intros Hm. case_bool_decide as He; [by subst|].
  apply elem_of_cons in Hm as [->|Hm]; [done|].
  rewrite (IH Hm) at 1. apply Permutation_swap.
Qed.

Lemma heappop_Ok h m h' :
  heappop h = Ok (m, h') →
  m ∈ h ∧ (∀ x, x ∈ h → event_le m x) ∧ h ≡ₚ m :: h'.
Proof.
  destruct h as [|e h]; [done|]. unfold heappop.
  intros [= <- <-]. split_and!.
  - apply least_elem_of.
  - apply least_le.
  - apply remove_one_perm, least_elem_of.
Qed.

Lemma heappop_nonempty h :
  h ≠ [] → ∃ m h', heappop h = Ok (m, h').
Proof. destruct h; [done|]. intros _. unfold heappop. eauto. Qed.

Lemma heappop_Err h e : heappop h = Err e → h = [] ∧ e = IndexError.
Proof. destruct h; [|done]. by intros [= <-]. Qed.

Lemma heappop_singleton e : heappop [e] = Ok (e, []).
Proof. unfold heappop. simpl. by rewrite bool_decide_eq_true_2. Qed.

(** ** Dropped pushes *)

Lemma push_attempt_dropped rnd nl p t v :
  (rand_at rnd t v < p)%Qc → push_attempt rnd nl p t v = Ok None.
Proof.
  intros H. unfold push_attempt.
  rewrite bool_decide_eq_false_2; [done|]. by apply Qclt_not_le.
Qed.

Lemma async_push_dropped rnd nl p ev infected :
  (rand_ev rnd ev < p)%Qc → async_push rnd nl p ev infected = Ok (infected, None).
Proof.
  intros H. unfold async_push.
  rewrite bool_decide_eq_false_2; [done|]. by apply Qclt_not_le.
Qed.

Section FullFailure.
Context (walk : nat → gset Z → list Z).
Context (rnd : sync_source) (arnd : async_source).
Context (nl : list (list Z)) (p ec : Qc).
Hypothesis sync_dropped : ∀ t v, (rand_at rnd t v < p)%Qc.
Hypothesis async_dropped : ∀ ev, (rand_ev arnd ev < p)%Qc.

Lemma sync_for_dropped t nodes newly :
  sync_for rnd nl p t nodes newly = Ok newly.
Proof.
  induction nodes as [|v nodes IH]; simpl; [done|].
  by rewrite push_attempt_dropped.
Qed.

Lemma sync_step_dropped t infected :
  sync_step walk rnd nl p ec (t, infected) =
  if reached infected ec (len nl) then Done (S t) else Next (S t, infected).
Proof.
  unfold sync_step. rewrite sync_for_dropped.
  by rewrite (right_id_L ∅ (∪)).
Qed.

Lemma sync_run_dropped fuel t infected :
  run (sync_step walk rnd nl p ec) (S fuel) (t, infected) =
  if reached infected ec (len nl) then Returned (S t) else OutOfFuel.
Proof.
  revert t. induction fuel as [|fuel IH]; intros t.
  - cbn [run]. rewrite sync_step_dropped. by destruct (reached _ _ _).
  - rewrite run_S, sync_step_dropped.
    destruct (reached _ _ _) eqn:Hr; [done|]. by rewrite IH.
Qed.

Lemma fast_for_dropped t nodes acc acc' :
  fast_for rnd nl p t nodes acc = Ok acc' →
  acc_infected acc' = acc_infected acc ∧ acc_newly acc' = acc_newly acc.
Proof.
  revert acc. induction nodes as [|v nodes IH]; intros acc; simpl.
  - by intros [= <-].
  - destruct (py_getitem nl v) as [nb|]; simpl; [|done].
    destruct (issubset nb (acc_infected acc)).
    + intros [-> ->]%IH. done.
    + rewrite push_attempt_dropped by done. simpl. apply IH.
Qed.

Lemma fast_sync_run_dropped fuel st r :
  run (fast_sync_step walk rnd nl p ec) fuel st = Returned r →
  reached (fs_infected st) ec (len nl) = true ∧ r = S (fs_t st).
Proof.
  revert st. induction fuel as [|fuel IH]; intros st; simpl; [done|].
  unfold fast_sync_step.
  destruct (fast_for _ _ _ _ _ _) as [acc|] eqn:Hacc; [|done].
  apply fast_for_dropped in Hacc as [Hinf _]. simpl in Hinf. rewrite Hinf.
  destruct (reached _ _ _) eqn:Hr.
  - by intros [= <-].
  - intros [Hr' _]%IH. simpl in Hr'. congruence.
Qed.

Lemma async_run_dropped fuel time s :
  run (async_step arnd nl p ec) (S fuel) ({[s]}, [(time, s)]) =
  if reached {[s]} ec (len nl) then Returned time else OutOfFuel.
Proof.
  revert time. induction fuel as [|fuel IH]; intros time.
  - cbn [run]. unfold async_step. rewrite heappop_singleton.
    rewrite async_push_dropped by done. unfold async_finish. simpl.
    by destruct (reached _ _ _).
  - rewrite run_S. unfold async_step at 1.
    rewrite heappop_singleton.
    rewrite async_push_dropped by done.
    cbv beta iota zeta delta [async_finish fst snd].
    destruct (reached _ _ _) eqn:Hr; [done|].
    unfold PushAsynchronousEvent, heappush.
    by rewrite IH.
Qed.

Lemma fast_async_run_dropped n fuel time s r :
  run (fast_async_step arnd nl p ec n) fuel ({[s]}, [(time, s)]) = Returned r →
  reached {[s]} ec n = true ∧ r = time.
Proof.
  revert time. induction fuel as [|fuel IH]; intros time; [done|].
  cbn [run]. unfold fast_async_step. rewrite heappop_singleton. simpl.
  destruct (py_getitem nl s) as [nb|]; [|done].
  destruct (issubset nb {[s]}).
  - destruct fuel; [done|]. simpl. done.
  - rewrite async_push_dropped by done. unfold async_finish. simpl.
    destruct (reached _ _ _) eqn:Hr.
    + by intros [= <-].
    + unfold PushAsynchronousEvent, heappush. intros [Hr' _]%IH. congruence.
Qed.
(** With every push dropped, the [for] loop of the fast synchronous estimator
    over nodes that index [neighbor_list] raises nothing and infects
    nothing. *)
Lemma fast_for_dropped_total t nodes acc :
  (∀ v, v ∈ nodes → ∃ nb, py_getitem nl v = Ok nb) →
  ∃ acc', fast_for rnd nl p t nodes acc = Ok acc' ∧
          acc_infected acc' = acc_infected acc ∧
          acc_newly acc' = acc_newly acc.
Proof.
  revert acc. induction nodes as [|v nodes IH]; intros acc Hn; simpl.
  - by exists acc.
  - assert (Hrest : ∀ w, w ∈ nodes → ∃ nb, py_getitem nl w = Ok nb)
      by (intros w Hw; apply Hn; by right).
    destruct (Hn v) as [nb ->]; [left|]. simpl.
    destruct (issubset nb (acc_infected acc)).
    + destruct (IH (FastAcc (acc_infected acc) ({[v]} ∪ acc_useless acc)
                      (acc_newly acc)) Hrest) as (acc' & -> & Hi & Hw).
      by exists acc'.
    + rewrite push_attempt_dropped by done. simpl. by apply IH.
Qed.

Lemma fast_sync_stalls_dropped fuel s nb t useful :
  enumerates walk → py_getitem nl s = Ok nb → useful ⊆ {[s]} →
  reached {[s]} ec (len nl) = false →
  run (fast_sync_step walk rnd nl p ec) fuel (FastState t {[s]} useful)
  = OutOfFuel.
Proof.
  intros Hw Hnb. revert t useful.
  induction fuel as [|fuel IH]; intros t useful Hu Hr; [done|].
  rewrite run_S. unfold fast_sync_step. cbn [fs_t fs_infected fs_useful].
  destruct (fast_for_dropped_total t (walk t useful) (FastAcc {[s]} ∅ ∅))
    as (acc & -> & Hi & Hn).
  { intros v Hv%(enumerates_elem_of _ _ _ _ Hw).
    apply Hu, elem_of_singleton in Hv as ->. by exists nb. }
  simpl in Hi, Hn. rewrite Hi, Hr. apply IH; [|done].
  rewrite Hn.
  intros x [[Hx|Hx]%elem_of_union _]%elem_of_difference;
    [by apply Hu|by apply elem_of_empty in Hx].
Qed.

(** What the fast synchronous estimator does when every push is dropped. *)
Lemma fast_sync_run_dropped_all fuel s :
  enumerates walk →
  run (fast_sync_step walk rnd nl p ec) (S fuel) (FastState O {[s]} {[s]}) =
  match py_getitem nl s with
  | Err _ => Raised IndexError
  | Ok _ => if reached {[s]} ec (len nl) then Returned 1%nat else OutOfFuel
  end.
Proof.
  intros Hw. rewrite run_S. unfold fast_sync_step.
  cbn [fs_t fs_infected fs_useful].
  rewrite (enumerates_singleton walk O s Hw).
  destruct (py_getitem nl s) as [nb|e] eqn:Hnb.
  - destruct (fast_for_dropped_total O [s] (FastAcc {[s]} ∅ ∅))
      as (acc & -> & Hi & Hn).
    { intros v ->%list_elem_of_singleton. by exists nb. }
    simpl in Hi, Hn. rewrite Hi.
    destruct (reached {[s]} ec (len nl)) eqn:Hr; [done|].
    eapply fast_sync_stalls_dropped; [done|exact Hnb| |done].
    rewrite Hn.
    intros x [[Hx|Hx]%elem_of_union _]%elem_of_difference;
      [done|by apply elem_of_empty in Hx].
  - cbn [fast_for]. rewrite Hnb. simpl.
    by apply py_getitem_Err in Hnb as [-> _].
Qed.

Lemma fast_async_stalls_dropped n fuel time s nb :
  py_getitem nl s = Ok nb → issubset nb {[s]} = false →
  reached {[s]} ec n = false →
  run (fast_async_step arnd nl p ec n) fuel ({[s]}, [(time, s)]) = OutOfFuel.
Proof.
  intros Hnb Hsub Hr. revert time.
  induction fuel as [|fuel IH]; intros time; [done|].
  rewrite run_S. unfold fast_async_step at 1. rewrite heappop_singleton.
  cbn [snd]. rewrite Hnb, Hsub.
  rewrite async_push_dropped by done.
  cbv beta iota zeta delta [async_finish fst snd]. rewrite Hr.
  unfold PushAsynchronousEvent, heappush. apply IH.
Qed.

(** What the fast asynchronous estimator does when every push is dropped:
    the only event is the source's, and it is not rescheduled when the
    source has no neighbour other than itself. *)
Lemma fast_async_run_dropped_all n fuel time s :
  run (fast_async_step arnd nl p ec n) (S (S fuel)) ({[s]}, [(time, s)]) =
  match py_getitem nl s with
  | Err _ => Raised IndexError
  | Ok nb =>
      if issubset nb {[s]} then Raised IndexError
      else if reached {[s]} ec n then Returned time else OutOfFuel
  end.
Proof.
  rewrite run_S. unfold fast_async_step at 1. rewrite heappop_singleton.
  cbn [snd].
  destruct (py_getitem nl s) as [nb|e] eqn:Hnb.
  - destruct (issubset nb {[s]}) eqn:Hsub.
    + rewrite run_S. unfold fast_async_step. by cbn [heappop].
    + rewrite async_push_dropped by done.
      cbv beta iota zeta delta [async_finish fst snd].
      destruct (reached {[s]} ec n) eqn:Hr; [done|].
      unfold PushAsynchronousEvent, heappush.
      by eapply fast_async_stalls_dropped.
  - by apply py_getitem_Err in Hnb as [-> _].
Qed.
End FullFailure.

(** ** C9: [failure_probability = 1] *)




(** ** C7: empty neighbour lists *)

(** C7, as stated, fails: on a single node without neighbours the exact
    synchronous and asynchronous estimators raise [ValueError] when the
    source attempts its push. *)
Lemma empty_neighborhood_raises :
  EstimateSynchronousGossipTime walk_elements by_index_sync [[]] 0%Qc
    (Q2Qc (9 # 10)) 5 0 1 = Raised ValueError ∧
  EstimateAsynchronousGossipTime by_index_async [[]] 0%Qc
    (Q2Qc (9 # 10)) 5 0 1 = Raised ValueError.
Proof. split; by vm_compute. Qed.

(** C7 (amended).  For a node [v] whose neighbour list is empty: the fast
    estimators skip it without a draw, its neighbour set being a subset of
    any infected set (the fast synchronous loop marks it useless, the fast
    asynchronous loop discards its event); the exact estimators attempt
    nothing only when the failure draw drops the push, and otherwise fail
    with [ValueError], raised by the choice over the empty list. *)
Theorem empty_neighborhood_skipped_only_by_fast
    walk rnd arnd nl p ec n v :
  py_getitem nl v = Ok [] →
  (∀ t, push_attempt rnd nl p t v =
        if bool_decide (p ≤ rand_at rnd t v)%Qc then Err ValueError
        else Ok None) ∧
  (∀ t infected,
     enumerates walk → v ∈ infected → (p ≤ rand_at rnd t v)%Qc →
     ∃ e, sync_step walk rnd nl p ec (t, infected) = Fail e) ∧
  (∀ time infected h h',
     heappop h = Ok ((time, v), h') →
     async_step arnd nl p ec (infected, h) =
     if bool_decide (p ≤ rand_ev arnd (time, v))%Qc then Fail ValueError
     else async_finish arnd ec (len nl) (time, v) h' (infected, None)) ∧
  (∀ t rest acc,
     fast_for rnd nl p t (v :: rest) acc =
     fast_for rnd nl p t rest
       (FastAcc (acc_infected acc) ({[v]} ∪ acc_useless acc) (acc_newly acc))) ∧
  (∀ time infected h h',
     heappop h = Ok ((time, v), h') →
     fast_async_step arnd nl p ec n (infected, h) = Next (infected, h')).
Proof.
  intros Hv.
  assert (Hpush : ∀ t, push_attempt rnd nl p t v =
            if bool_decide (p ≤ rand_at rnd t v)%Qc then Err ValueError
            else Ok None).
  { intros t. unfold push_attempt. rewrite Hv. by case_bool_decide. }
  split_and!.
  - exact Hpush.
  - intros t infected Hw Hin Hdraw.
    unfold sync_step.
    destruct (sync_for rnd nl p t (walk t infected) ∅) as [newly|e] eqn:Hfor;
      [|by eauto].
    apply sync_for_Ok in Hfor as [Hall _].
    destruct (Hall v) as [r Hr]; [by apply enumerates_elem_of|].
    rewrite Hpush, bool_decide_eq_true_2 in Hr by done. done.
  - intros time infected h h' Hpop. unfold async_step, async_push.
    rewrite Hpop. simpl. rewrite Hv. by case_bool_decide.
  - intros t rest acc. simpl. rewrite Hv. simpl.
    unfold issubset. by rewrite bool_decide_eq_true_2 by set_solver.
  - intros time infected h h' Hpop. unfold fast_async_step.
    rewrite Hpop. simpl. rewrite Hv.
    unfold issubset. by rewrite bool_decide_eq_true_2 by set_solver.
Qed.

Lemma empty_neighborhood_skipped_only_by_fast_witness :
  fast_async_step by_index_async [[]] 0%Qc (Q2Qc (9 # 10)) 1
    ({[0]}, [(1%Qc, 0)]) = Next ({[0]}, []).
Proof.
  pose proof (empty_neighborhood_skipped_only_by_fast walk_elements
                by_index_sync by_index_async [[]] 0%Qc (Q2Qc (9 # 10)) 1 0)
    as H.
  destruct H as (_ & _ & _ & _ & H); [reflexivity|].
  apply (H 1%Qc). apply heappop_singleton.
Defined.

(** ** C5: the infected set only grows *)

Lemma iterate_monotone {St A : Type} (step : St → step_result St A)
    (f : St → nat) :
  (∀ s s', step s = Next s' → (f s ≤ f s')%nat) →
  ∀ n m s a b, (n ≤ m)%nat →
    iterate step n s = Some a → iterate step m s = Some b → (f a ≤ f b)%nat.
Proof.
  intros Hstep n m s a b Hnm Ha.
  replace m with (n + (m - n))%nat by lia.
  rewrite (iterate_add _ _ _ _ _ Ha). clear Ha Hnm s.
  generalize (m - n)%nat as k. intros k. revert a.
  induction k as [|k IH]; intros a; simpl.
  - by intros [= ->].
  - destruct (step a) as [a'| |] eqn:Hs; try done.
    intros Hb. apply Hstep in Hs. apply IH in Hb. lia.
Qed.

Lemma sync_step_grows walk rnd nl p ec st st' :
  sync_step walk rnd nl p ec st = Next st' → st.2 ⊆ st'.2.
Proof.
  destruct st as [t infected]. unfold sync_step.
  destruct (sync_for _ _ _ _ _ _) as [newly|]; [|done].
  destruct (reached _ _ _); [done|]. intros [= <-]. simpl.
  apply union_subseteq_l.
Qed.

Lemma fast_for_grows rnd nl p t nodes acc acc' :
  fast_for rnd nl p t nodes acc = Ok acc' →
  acc_infected acc ⊆ acc_infected acc'.
Proof.
  revert acc. induction nodes as [|v nodes IH]; intros acc; simpl.
  - by intros [= <-].
  - destruct (py_getitem nl v) as [nb|]; simpl; [|done].
    destruct (issubset nb (acc_infected acc)).
    + intros H%IH. done.
    + destruct (push_attempt rnd nl p t v) as [[c|]|]; simpl; [| |done].
      * intros H%IH. simpl in H. etrans; [|exact H]. apply union_subseteq_r.
      * apply IH.
Qed.

Lemma fast_sync_step_grows walk rnd nl p ec st st' :
  fast_sync_step walk rnd nl p ec st = Next st' →
  fs_infected st ⊆ fs_infected st'.
Proof.
  unfold fast_sync_step.
  destruct (fast_for _ _ _ _ _ _) as [acc|] eqn:Hacc; [|done].
  destruct (reached _ _ _); [done|]. intros [= <-]. simpl.
  by apply fast_for_grows in Hacc.
Qed.

Lemma async_push_grows rnd nl p ev infected infected' fresh :
  async_push rnd nl p ev infected = Ok (infected', fresh) →
  infected ⊆ infected'.
Proof.
  unfold async_push. case_bool_decide; [|by intros [= <- _]].
  destruct (py_getitem nl ev.2) as [nb|]; simpl; [|done].
  destruct (np_random_choice nb _) as [c|]; simpl; [|done].
  intros [= <- _]. apply union_subseteq_r.
Qed.

Lemma async_finish_infected rnd ec n ev h pushed st' :
  async_finish rnd ec n ev h pushed = Next st' → st'.1 = pushed.1.
Proof.
  unfold async_finish. destruct pushed as [infected fresh].
  destruct (reached _ _ _); [done|]. by intros [= <-].
Qed.

Lemma async_step_grows rnd nl p ec st st' :
  async_step rnd nl p ec st = Next st' → st.1 ⊆ st'.1.
Proof.
  destruct st as [infected h]. unfold async_step.
  destruct (heappop h) as [[ev h']|]; [|done].
  destruct (async_push _ _ _ _ _) as [[infected' fresh]|] eqn:Hp; [|done].
  intros ->%async_finish_infected. simpl. by eapply async_push_grows.
Qed.

Lemma fast_async_step_grows rnd nl p ec n st st' :
  fast_async_step rnd nl p ec n st = Next st' → st.1 ⊆ st'.1.
Proof.
  destruct st as [infected h]. unfold fast_async_step.
  destruct (heappop h) as [[ev h']|]; [|done].
  destruct (py_getitem nl ev.2) as [nb|]; [|done].
  destruct (issubset nb infected); [by intros [= <-]|].
  destruct (async_push _ _ _ _ _) as [[infected' fresh]|] eqn:Hp; [|done].
  intros ->%async_finish_infected. simpl. by eapply async_push_grows.
Qed.

(** C5.  In each of the four estimators, the size of the infected set after
    [n] rounds (events) of a call is at most its size after [m >= n]. *)
Theorem infected_size_monotone walk rnd arnd nl p ec s N n m :
  (n ≤ m)%nat →
  (∀ a b,
     iterate (sync_step walk rnd nl p ec) n (O, {[s]}) = Some a →
     iterate (sync_step walk rnd nl p ec) m (O, {[s]}) = Some b →
     (size a.2 ≤ size b.2)%nat) ∧
  (∀ a b,
     iterate (fast_sync_step walk rnd nl p ec) n (FastState O {[s]} {[s]})
     = Some a →
     iterate (fast_sync_step walk rnd nl p ec) m (FastState O {[s]} {[s]})
     = Some b →
     (size (fs_infected a) ≤ size (fs_infected b))%nat) ∧
  (∀ a b,
     iterate (async_step arnd nl p ec) n (async_init arnd s) = Some a →
     iterate (async_step arnd nl p ec) m (async_init arnd s) = Some b →
     (size a.1 ≤ size b.1)%nat) ∧
  (∀ a b,
     iterate (fast_async_step arnd nl p ec N) n (async_init arnd s) = Some a →
     iterate (fast_async_step arnd nl p ec N) m (async_init arnd s) = Some b →
     (size a.1 ≤ size b.1)%nat).
Proof.
  intros Hnm. split_and!; intros a b Ha Hb.
  - eapply (iterate_monotone _ (λ st, size st.2)); [|exact Hnm|exact Ha|exact Hb].
    intros st st' H. by apply sync_step_grows, subseteq_size in H.
  - eapply (iterate_monotone _ (λ st, size (fs_infected st)));
      [|exact Hnm|exact Ha|exact Hb].
    intros st st' H. by apply fast_sync_step_grows, subseteq_size in H.
  - eapply (iterate_monotone _ (λ st, size st.1)); [|exact Hnm|exact Ha|exact Hb].
    intros st st' H. by apply async_step_grows, subseteq_size in H.
  - eapply (iterate_monotone _ (λ st, size st.1)); [|exact Hnm|exact Ha|exact Hb].
    intros st st' H. by apply fast_async_step_grows, subseteq_size in H.
Qed.

Lemma infected_size_monotone_witness :
  ∃ a b,
    iterate (sync_step walk_elements by_index_sync cycle4 0%Qc 1%Qc) 1
      (O, {[0]}) = Some a ∧
    iterate (sync_step walk_elements by_index_sync cycle4 0%Qc 1%Qc) 3
      (O, {[0]}) = Some b ∧
    (size a.2 ≤ size b.2)%nat.
Proof.
  exists (1%nat, {[0; 1]}), (3%nat, {[0; 1; 2]}).
  assert (iterate (sync_step walk_elements by_index_sync cycle4 0%Qc 1%Qc) 1
            (O, {[0]}) = Some (1%nat, {[0; 1]})) as Ha by by vm_compute.
  assert (iterate (sync_step walk_elements by_index_sync cycle4 0%Qc 1%Qc) 3
            (O, {[0]}) = Some (3%nat, {[0; 1; 2]})) as Hb by by vm_compute.
  split_and!; [exact Ha|exact Hb|].
  destruct (infected_size_monotone walk_elements by_index_sync by_index_async
              cycle4 0%Qc 1%Qc 0 4 1 3) as [H _]; [lia|].
  exact (H _ _ Ha Hb).
Defined.

(** ** C2: one round of the exact synchronous estimator *)

Lemma sync_iterate_counter walk rnd nl p ec n st st' :
  iterate (sync_step walk rnd nl p ec) n st = Some st' →
  st'.1 = (n + st.1)%nat.
Proof.
  revert st. induction n as [|n IH]; intros [t infected]; simpl.
  - by intros [= <-].
  - destruct (sync_for _ _ _ _ _ _) as [newly|]; [|done].
    destruct (reached _ _ _); [done|].
    intros ->%IH. simpl. lia.
Qed.



(** ** C3: one event of the exact asynchronous estimator *)



(** ** What a push can reach *)

Lemma push_attempt_edge rnd nl p t v c :
  push_attempt rnd nl p t v = Ok (Some c) →
  (p ≤ rand_at rnd t v)%Qc ∧ ∃ nb, py_getitem nl v = Ok nb ∧ c ∈ nb.
Proof.
  unfold push_attempt. case_bool_decide; [|done].
  destruct (py_getitem nl v) as [nb|] eqn:Hnb; simpl; [|done].
  destruct (np_random_choice nb _) as [c'|] eqn:Hc; simpl; [|done].
  intros [= <-]. split; [done|]. exists nb. split; [done|].
  by eapply np_random_choice_elem_of.
Qed.

Lemma async_push_cases rnd nl p ev infected infected' fresh :
  async_push rnd nl p ev infected = Ok (infected', fresh) →
  (infected' = infected ∧ fresh = None) ∨
  ∃ nb c, py_getitem nl ev.2 = Ok nb ∧ c ∈ nb ∧
          infected' = {[c]} ∪ infected ∧
          fresh = (if bool_decide (c ∉ infected) then Some c else None).
Proof.
  unfold async_push. case_bool_decide; [|intros [= <- <-]; by left].
  destruct (py_getitem nl ev.2) as [nb|] eqn:Hnb; simpl; [|done].
  destruct (np_random_choice nb _) as [c|] eqn:Hc; simpl; [|done].
  intros [= <- <-]. right. apply np_random_choice_elem_of in Hc.
  by exists nb, c.
Qed.

(** A push from a node with a non-empty neighbour list raises nothing. *)
Lemma push_attempt_nonempty rnd nl p t v nb :
  py_getitem nl v = Ok nb → nb ≠ [] → ∃ r, push_attempt rnd nl p t v = Ok r.
Proof.
  intros Hnb Hne. unfold push_attempt.
  case_bool_decide; [|by eauto]. rewrite Hnb. simpl.
  destruct (np_random_choice_nonempty nb (choice_at rnd t v) Hne)
    as (c & -> & _).
  simpl. eauto.
Qed.

Lemma async_push_nonempty rnd nl p ev infected nb :
  py_getitem nl ev.2 = Ok nb → nb ≠ [] →
  ∃ pushed, async_push rnd nl p ev infected = Ok pushed.
Proof.
  intros Hnb Hne. unfold async_push.
  case_bool_decide; [|by eauto]. rewrite Hnb. simpl.
  destruct (np_random_choice_nonempty nb (choice_ev rnd ev) Hne)
    as (c & -> & _).
  simpl. eauto.
Qed.

(** A push from a node whose neighbours are all infected changes nothing. *)
Lemma async_push_saturated rnd nl p ev infected nb :
  py_getitem nl ev.2 = Ok nb → nb ≠ [] → saturated nl ev.2 infected →
  async_push rnd nl p ev infected = Ok (infected, None).
Proof.
  intros Hnb Hne Hsat.
  destruct (async_push_nonempty rnd nl p ev infected nb Hnb Hne)
    as [[infected' fresh] Hp].
  rewrite Hp.
  apply async_push_cases in Hp as [[-> ->]|(nb' & c & Hnb' & Hc & -> & ->)];
    [done|].
  assert (c ∈ infected) as Hin by by eapply Hsat.
  rewrite bool_decide_eq_false_2 by (by intros ?).
  f_equal. f_equal. apply subseteq_union_1_L. by apply singleton_subseteq_l.
Qed.

(** *** The [for] loop of the fast synchronous estimator *)

Lemma fast_for_spec rnd nl p t nodes acc :
  (∀ v, v ∈ nodes → ∃ nb, py_getitem nl v = Ok nb ∧ nb ≠ []) →
  ∃ acc', fast_for rnd nl p t nodes acc = Ok acc' ∧
    acc_infected acc ⊆ acc_infected acc' ∧
    (∀ x, x ∈ acc_infected acc' →
          x ∈ acc_infected acc ∨
          ∃ v, v ∈ nodes ∧ push_attempt rnd nl p t v = Ok (Some x)) ∧
    (∀ v x, v ∈ nodes → push_attempt rnd nl p t v = Ok (Some x) →
            x ∈ acc_infected acc') ∧
    (∀ v, v ∈ acc_useless acc' →
          v ∈ acc_useless acc ∨
          (v ∈ nodes ∧ saturated nl v (acc_infected acc'))) ∧
    (∀ x, x ∈ acc_infected acc' →
          x ∈ acc_infected acc ∨ x ∈ acc_newly acc') ∧
    (∀ x, x ∈ acc_newly acc' → x ∈ acc_newly acc ∨ x ∈ acc_infected acc') ∧
    acc_newly acc ⊆ acc_newly acc'.
Proof.
  revert acc. induction nodes as [|v nodes IH]; intros acc Hnodes.
  - exists acc. split_and!; try done; auto.
    + intros v x ?%elem_of_nil. done.
  - assert (Hrest : ∀ w, w ∈ nodes →
                        ∃ nb, py_getitem nl w = Ok nb ∧ nb ≠ [])
      by (intros w Hw; apply Hnodes; by right).
    destruct (Hnodes v) as (nb & Hnb & Hne); [left|].
    simpl. rewrite Hnb. simpl.
    destruct (issubset nb (acc_infected acc)) eqn:Hsub.
    + destruct (IH (FastAcc (acc_infected acc) ({[v]} ∪ acc_useless acc)
                      (acc_newly acc)) Hrest)
        as (acc' & -> & Ha & Hb & Hc & Hd & He & Hf & Hg).
      simpl in *. exists acc'. split_and!; try done.
      * intros x [?|(w & Hw & Hp)]%Hb; [by left|].
        right. exists w. split; [by right|done].
      * intros w x [->|Hw]%elem_of_cons Hp; [|by eapply Hc].
        apply Ha. rewrite issubset_spec in Hsub. apply Hsub.
        apply push_attempt_edge in Hp as (_ & nb' & Hnb' & Hx). congruence.
      * intros w [[->%elem_of_singleton|?]%elem_of_union|[Hw Hs]]%Hd.
        -- right. split; [left|].
           eapply saturated_mono; [exact Ha|].
           by apply (issubset_saturated nl v nb).
        -- by left.
        -- right. split; [by right|done].
    + destruct (push_attempt_nonempty rnd nl p t v nb Hnb Hne) as [[c|] Hp];
        rewrite Hp; simpl.
      * destruct (IH (FastAcc ({[c]} ∪ acc_infected acc) (acc_useless acc)
                        ({[c]} ∪ acc_newly acc)) Hrest)
          as (acc' & -> & Ha & Hb & Hc & Hd & He & Hf & Hg).
        simpl in *. exists acc'. split_and!; try done.
        -- etrans; [|exact Ha]. apply union_subseteq_r.
        -- intros x [[->%elem_of_singleton|?]%elem_of_union|(w & Hw & Hp')]%Hb.
           ++ right. exists v. split; [left|done].
           ++ by left.
           ++ right. exists w. split; [by right|done].
        -- intros w x [->|Hw]%elem_of_cons Hp'; [|by eapply Hc].
           apply Ha. rewrite Hp in Hp'. injection Hp' as <-.
           apply elem_of_union. left. by apply elem_of_singleton.
        -- intros w [?|[Hw Hs]]%Hd; [by left|].
           right. split; [by right|done].
        -- intros x Hx. destruct (He x Hx) as [[Hx'|?]%elem_of_union|?];
             [|by left|by right].
           right. apply Hg. apply elem_of_union. by left.
        -- intros x [[Hx|?]%elem_of_union|?]%Hf; [|by left|by right].
           right. apply Ha. apply elem_of_union. by left.
        -- etrans; [|exact Hg]. apply union_subseteq_r.
      * destruct (IH acc Hrest) as (acc' & -> & Ha & Hb & Hc & Hd & He & Hf & Hg).
        exists acc'. split_and!; try done.
        -- intros x [?|(w & Hw & Hp')]%Hb; [by left|].
           right. exists w. split; [by right|done].
        -- intros w x [->|Hw]%elem_of_cons Hp'; [congruence|by eapply Hc].
        -- intros w [?|[Hw Hs]]%Hd; [by left|].
           right. split; [by right|done].
Qed.

(** ** Well-formed topologies raise nothing *)

Section WellFormed.
Context (nl : list (list Z)).
Hypothesis nl_wf : well_formed nl = true.

Lemma in_range_getitem v :
  in_range nl v = true → ∃ nb, py_getitem nl v = Ok nb ∧ nb ≠ [].
Proof.
  intros [nb Hnb]%in_range_spec%py_getitem_in_range.
  exists nb. split; [done|]. by eapply well_formed_getitem.
Qed.

Lemma push_attempt_total rnd p t v :
  in_range nl v = true → ∃ r, push_attempt rnd nl p t v = Ok r.
Proof.
  intros (nb & Hnb & Hne)%in_range_getitem. unfold push_attempt.
  case_bool_decide; [|by eauto]. rewrite Hnb. simpl.
  destruct (np_random_choice_nonempty nb (choice_at rnd t v) Hne)
    as (c & -> & _).
  simpl. eauto.
Qed.

Lemma push_attempt_Some rnd p t v c :
  push_attempt rnd nl p t v = Ok (Some c) →
  ∃ nb, py_getitem nl v = Ok nb ∧ c ∈ nb ∧ in_range nl c = true.
Proof.
  unfold push_attempt. case_bool_decide; [|done].
  destruct (py_getitem nl v) as [nb|] eqn:Hnb; simpl; [|done].
  destruct (np_random_choice nb _) as [c'|] eqn:Hc; simpl; [|done].
  intros [= <-]. apply np_random_choice_elem_of in Hc.
  exists nb. split_and!; [done|done|].
  by eapply well_formed_getitem.
Qed.

Lemma async_push_total rnd p ev infected :
  in_range nl ev.2 = true →
  ∃ pushed, async_push rnd nl p ev infected = Ok pushed.
Proof.
  intros (nb & Hnb & Hne)%in_range_getitem. unfold async_push.
  case_bool_decide; [|by eauto]. rewrite Hnb. simpl.
  destruct (np_random_choice_nonempty nb (choice_ev rnd ev) Hne)
    as (c & -> & _).
  simpl. eauto.
Qed.

(** What a push of the asynchronous estimators yields: nothing new, or a
    neighbour of the acting node. *)
Lemma async_push_Ok rnd p ev infected infected' fresh :
  async_push rnd nl p ev infected = Ok (infected', fresh) →
  (infected' = infected ∧ fresh = None) ∨
  ∃ nb c, py_getitem nl ev.2 = Ok nb ∧ c ∈ nb ∧ in_range nl c = true ∧
          infected' = {[c]} ∪ infected ∧
          fresh = (if bool_decide (c ∉ infected) then Some c else None).
Proof.
  unfold async_push. case_bool_decide; [|intros [= <- <-]; by left].
  destruct (py_getitem nl ev.2) as [nb|] eqn:Hnb; simpl; [|done].
  destruct (np_random_choice nb _) as [c|] eqn:Hc; simpl; [|done].
  intros [= <- <-]. right. apply np_random_choice_elem_of in Hc.
  exists nb, c. split_and!; try done. by eapply well_formed_getitem.
Qed.

End WellFormed.

(** ** The fast synchronous estimator agrees with the exact one *)

Section SyncAgreement.
Context (walk walk' : nat → gset Z → list Z) (rnd : sync_source).
Context (nl : list (list Z)) (p ec : Qc).
Hypothesis walk_enum : enumerates walk.
Hypothesis walk'_enum : enumerates walk'.
Hypothesis nl_wf : well_formed nl = true.

Lemma sync_steps_agree t infected useful :
  frontier_inv nl infected useful →
  ∃ infected',
    infected ⊆ infected' ∧
    sync_step walk rnd nl p ec (t, infected) =
      (if reached infected' ec (len nl) then Done (S t)
       else Next (S t, infected')) ∧
    ∃ useful',
      frontier_inv nl infected' useful' ∧
      fast_sync_step walk' rnd nl p ec (FastState t infected useful) =
        (if reached infected' ec (len nl) then Done (S t)
         else Next (FastState (S t) infected' useful')).
Proof.
  intros (Hrange & Hsub & Hsat).
  destruct (sync_for_total rnd nl p t (walk t infected) ∅) as [newly Hfor].
  { intros v Hv%(enumerates_elem_of _ _ _ _ walk_enum).
    apply push_attempt_total; auto. }
  destruct (fast_for_spec rnd nl p t (walk' t useful)
              (FastAcc infected ∅ ∅))
    as (acc & Hfast & Ha & Hb & Hc & Hd & He & Hf & _).
  { intros v Hv%(enumerates_elem_of _ _ _ _ walk'_enum).
    apply (in_range_getitem nl nl_wf). auto. }
  simpl in *.
  apply sync_for_Ok in Hfor as Hnewly. destruct Hnewly as [_ Hnewly].
  assert (Heq : infected ∪ newly = acc_infected acc).
  { apply set_eq. intros x. rewrite elem_of_union, Hnewly. split.
    - intros [Hx|[?%elem_of_empty|(v & Hv & Hp)]]; [by apply Ha|done|].
      apply (enumerates_elem_of _ _ _ _ walk_enum) in Hv.
      destruct (decide (v ∈ useful)) as [Hu|Hu].
      + eapply Hc; [|exact Hp]. by apply (enumerates_elem_of _ _ _ _ walk'_enum).
      + apply Ha.
        apply (push_attempt_Some nl nl_wf) in Hp as (nb & Hnb & Hx & _).
        by eapply (Hsat v Hv Hu).
    - intros [Hx|(v & Hv & Hp)]%Hb; [by left|].
      right. right. exists v. split; [|done].
      apply (enumerates_elem_of _ _ _ _ walk_enum).
      apply (enumerates_elem_of _ _ _ _ walk'_enum) in Hv. auto. }
  exists (acc_infected acc). split_and!.
  - done.
  - unfold sync_step. by rewrite Hfor, Heq.
  - exists ((useful ∪ acc_newly acc) ∖ acc_useless acc). split.
    + split_and!.
      * intros x [Hx|(v & Hv & Hp)]%Hb; [auto|].
        by apply (push_attempt_Some nl nl_wf) in Hp as (_ & _ & _ & ?).
      * intros x [[Hx|Hx]%elem_of_union _]%elem_of_difference.
        -- auto.
        -- by destruct (Hf x Hx) as [?%elem_of_empty|?].
      * intros v Hv Hnot.
        destruct (decide (v ∈ acc_useless acc)) as [Hu|Hu].
        -- by destruct (Hd v Hu) as [?%elem_of_empty|[_ ?]].
        -- assert ((v ∉ useful) ∧ (v ∉ acc_newly acc)) as [Hnu Hnn].
           { split; intros ?; apply Hnot; apply elem_of_difference;
               (split; [apply elem_of_union; auto|done]). }
           destruct (He v Hv) as [Hin|?]; [|done].
           eapply saturated_mono; [exact Ha|]. auto.
    + unfold fast_sync_step. simpl. by rewrite Hfast.
Qed.

Lemma sync_runs_agree fuel t infected useful :
  frontier_inv nl infected useful →
  run (sync_step walk rnd nl p ec) fuel (t, infected) =
  run (fast_sync_step walk' rnd nl p ec) fuel (FastState t infected useful) ∧
  ∀ e, run (sync_step walk rnd nl p ec) fuel (t, infected) ≠ Raised e.
Proof.
  revert t infected useful.
  induction fuel as [|fuel IH]; intros t infected useful Hinv; [done|].
  destruct (sync_steps_agree t infected useful Hinv)
    as (infected' & _ & Hexact & useful' & Hinv' & Hfast).
  rewrite !run_S, Hexact, Hfast.
  destruct (reached _ _ _); [done|]. by apply IH.
Qed.

Lemma frontier_inv_init s :
  in_range nl s = true → frontier_inv nl {[s]} {[s]}.
Proof.
  intros Hs. split_and!.
  - by intros v ->%elem_of_singleton.
  - done.
  - intros v Hv Hv'. done.
Qed.
End SyncAgreement.

(** *** On a topology that is sound from the source *)

Lemma well_formed_sound_from nl s :
  well_formed nl = true → in_range nl s = true → sound_from nl s.
Proof.
  intros Hwf Hs v Hv. apply (in_range_getitem nl Hwf).
  induction Hv as [|u nb v _ _ Hnb Hv]; [done|].
  by apply (well_formed_getitem nl u nb Hwf Hnb).
Qed.

Section SyncFromSource.
Context (walk walk' : nat → gset Z → list Z) (rnd : sync_source).
Context (nl : list (list Z)) (p ec : Qc) (s : Z).
Hypothesis walk_enum : enumerates walk.
Hypothesis walk'_enum : enumerates walk'.
Hypothesis nl_sound : sound_from nl s.

Lemma sync_steps_agree_from t infected useful :
  frontier_from nl s infected useful →
  ∃ infected',
    sync_step walk rnd nl p ec (t, infected) =
      (if reached infected' ec (len nl) then Done (S t)
       else Next (S t, infected')) ∧
    ∃ useful',
      frontier_from nl s infected' useful' ∧
      fast_sync_step walk' rnd nl p ec (FastState t infected useful) =
        (if reached infected' ec (len nl) then Done (S t)
         else Next (FastState (S t) infected' useful')).
Proof.
  intros (Hreach & Hsub & Hsat).
  destruct (sync_for_total rnd nl p t (walk t infected) ∅) as [newly Hfor].
  { intros v Hv%(enumerates_elem_of _ _ _ _ walk_enum).
    destruct (nl_sound v (Hreach v Hv)) as (nb & Hnb & Hne).
    by eapply push_attempt_nonempty. }
  destruct (fast_for_spec rnd nl p t (walk' t useful)
              (FastAcc infected ∅ ∅))
    as (acc & Hfast & Ha & Hb & Hc & Hd & He & Hf & _).
  { intros v Hv%(enumerates_elem_of _ _ _ _ walk'_enum).
    apply nl_sound. auto. }
  simpl in *.
  apply sync_for_Ok in Hfor as Hnewly. destruct Hnewly as [_ Hnewly].
  assert (Heq : infected ∪ newly = acc_infected acc).
  { apply set_eq. intros x. rewrite elem_of_union, Hnewly. split.
    - intros [Hx|[?%elem_of_empty|(v & Hv & Hp)]]; [by apply Ha|done|].
      apply (enumerates_elem_of _ _ _ _ walk_enum) in Hv.
      destruct (decide (v ∈ useful)) as [Hu|Hu].
      + eapply Hc; [|exact Hp]. by apply (enumerates_elem_of _ _ _ _ walk'_enum).
      + apply Ha.
        apply push_attempt_edge in Hp as (_ & nb & Hnb & Hx).
        by eapply (Hsat v Hv Hu).
    - intros [Hx|(v & Hv & Hp)]%Hb; [by left|].
      right. right. exists v. split; [|done].
      apply (enumerates_elem_of _ _ _ _ walk_enum).
      apply (enumerates_elem_of _ _ _ _ walk'_enum) in Hv. auto. }
  exists (acc_infected acc). split.
  - unfold sync_step. by rewrite Hfor, Heq.
  - exists ((useful ∪ acc_newly acc) ∖ acc_useless acc). split.
    + split_and!.
      * intros x [Hx|(v & Hv & Hp)]%Hb; [auto|].
        apply (enumerates_elem_of _ _ _ _ walk'_enum) in Hv.
        apply push_attempt_edge in Hp as (_ & nb & Hnb & Hx).
        eapply reachable_edge; [|exact Hnb|exact Hx]. auto.
      * intros x [[Hx|Hx]%elem_of_union _]%elem_of_difference.
        -- auto.
        -- by destruct (Hf x Hx) as [?%elem_of_empty|?].
      * intros v Hv Hnot.
        destruct (decide (v ∈ acc_useless acc)) as [Hu|Hu].
        -- by destruct (Hd v Hu) as [?%elem_of_empty|[_ ?]].
        -- assert ((v ∉ useful) ∧ (v ∉ acc_newly acc)) as [Hnu Hnn].
           { split; intros ?; apply Hnot; apply elem_of_difference;
               (split; [apply elem_of_union; auto|done]). }
           destruct (He v Hv) as [Hin|?]; [|done].
           eapply saturated_mono; [exact Ha|]. auto.
    + unfold fast_sync_step. simpl. by rewrite Hfast.
Qed.

Lemma sync_runs_agree_from fuel t infected useful :
  frontier_from nl s infected useful →
  run (sync_step walk rnd nl p ec) fuel (t, infected) =
  run (fast_sync_step walk' rnd nl p ec) fuel (FastState t infected useful).
Proof.
  revert t infected useful.
  induction fuel as [|fuel IH]; intros t infected useful Hinv; [done|].
  destruct (sync_steps_agree_from t infected useful Hinv)
    as (infected' & Hexact & useful' & Hinv' & Hfast).
  rewrite !run_S, Hexact, Hfast.
  destruct (reached _ _ _); [done|]. by apply IH.
Qed.

Lemma frontier_from_init : frontier_from nl s {[s]} {[s]}.
Proof.
  split_and!.
  - intros v ->%elem_of_singleton. constructor.
  - done.
  - intros v Hv Hv'. done.
Qed.
End SyncFromSource.

(** ** The fast asynchronous estimator agrees with the exact one *)

Section AsyncAgreement.
Context (rnd : async_source) (nl : list (list Z)) (p ec : Qc) (s : Z).
Hypothesis nl_sound : sound_from nl s.

Local Abbreviation exact_step := (async_step rnd nl p ec).
Local Abbreviation quick_step := (fast_async_step rnd nl p ec (len nl)).

Lemma async_step_saturated infected H m H' :
  heappop H = Ok (m, H') → reachable nl s m.2 →
  saturated nl m.2 infected → reached infected ec (len nl) = false →
  exact_step (infected, H) = Next (infected, again rnd m :: H').
Proof.
  intros Hpop Hr Hsat Hbelow. unfold async_step. rewrite Hpop.
  destruct (nl_sound _ Hr) as (nb & Hnb & Hne).
  rewrite (async_push_saturated rnd nl p m infected nb) by done.
  unfold async_finish. by rewrite Hbelow.
Qed.

Lemma agree_pop infected H G D m H' :
  agree nl ec s infected H G D → heappop H = Ok (m, H') →
  (m ∈ D ∧ H' ≡ₚ G ++ remove_one m D) ∨
  (∃ G', heappop G = Ok (m, G') ∧ H' ≡ₚ G' ++ D).
Proof.
  intros [Hperm _ _ _] Hpop.
  destruct (heappop_Ok _ _ _ Hpop) as (Hin & Hle & HpermH).
  destruct (decide (m ∈ D)) as [HD|HD].
  - left. split; [done|].
    apply (Permutation_cons_inv (a := m)). rewrite <- HpermH, Hperm.
    rewrite (remove_one_perm m D HD) at 1. by rewrite Permutation_middle.
  - right.
    assert (m ∈ G) as HG.
    { rewrite Hperm in Hin. by apply elem_of_app in Hin as [?|?]. }
    destruct (heappop_nonempty G) as (m2 & G' & Hpop2).
    { intros ->. by apply elem_of_nil in HG. }
    destruct (heappop_Ok _ _ _ Hpop2) as (Hin2 & Hle2 & HpermG).
    assert (m2 = m) as ->.
    { apply event_le_antisym; [by apply Hle2|].
      apply Hle. rewrite Hperm. apply elem_of_app. by left. }
    exists G'. split; [done|].
    apply (Permutation_cons_inv (a := m)). rewrite <- HpermH, Hperm.
    by rewrite HpermG.
Qed.

Lemma agree_stutter infected H G D m H' :
  agree nl ec s infected H G D → heappop H = Ok (m, H') →
  m ∈ D → H' ≡ₚ G ++ remove_one m D →
  exact_step (infected, H) = Next (infected, again rnd m :: H') ∧
  agree nl ec s infected (again rnd m :: H') G (again rnd m :: remove_one m D).
Proof.
  intros [Hperm Hok Hdead Hbelow] Hpop HD HpermH'.
  destruct (heappop_Ok _ _ _ Hpop) as (Hin & _ & HpermH).
  split.
  - apply async_step_saturated; auto.
  - split; [| | |done].
    + rewrite HpermH'. by rewrite Permutation_middle.
    + intros e [->|He]%elem_of_cons; [exact (Hok m Hin)|].
      apply Hok. rewrite HpermH. by right.
    + intros d [->|Hd]%elem_of_cons; [exact (Hdead m HD)|].
      apply Hdead. rewrite (remove_one_perm m D HD). by right.
Qed.

(** An event both estimators pop: either its node has no uninfected
    neighbour (the fast one drops the event, the exact one reschedules it
    to no effect), or both process it in the same way. *)
Lemma agree_live infected H G D m H' G' :
  agree nl ec s infected H G D →
  heappop H = Ok (m, H') → heappop G = Ok (m, G') → H' ≡ₚ G' ++ D →
  (exact_step (infected, H) = Next (infected, again rnd m :: H') ∧
   quick_step (infected, G) = Next (infected, G') ∧
   agree nl ec s infected (again rnd m :: H') G' (again rnd m :: D)) ∨
  (exact_step (infected, H) = Done m.1 ∧
   quick_step (infected, G) = Done m.1) ∨
  (∃ infected' H2 G2,
     exact_step (infected, H) = Next (infected', H2) ∧
     quick_step (infected, G) = Next (infected', G2) ∧
     agree nl ec s infected' H2 G2 D).
Proof.
  intros [Hperm Hok Hdead Hbelow] Hpop Hpop2 HpermH'.
  destruct (heappop_Ok _ _ _ Hpop) as (Hin & _ & HpermH).
  assert (Hr : reachable nl s m.2) by by apply Hok.
  assert (Hok' : ∀ e, e ∈ H' → reachable nl s e.2).
  { intros e He. apply Hok. rewrite HpermH. by right. }
  destruct (nl_sound _ Hr) as (nb & Hnb & Hne).
  destruct (issubset nb infected) eqn:Hsub.
  - left. assert (Hsat : saturated nl m.2 infected)
      by by apply (issubset_saturated nl m.2 nb).
    split_and!.
    + apply async_step_saturated; auto.
    + unfold fast_async_step. by rewrite Hpop2, Hnb, Hsub.
    + split; [| | |done].
      * rewrite HpermH'. by rewrite Permutation_middle.
      * intros e [->|He]%elem_of_cons; [done|by apply Hok'].
      * intros d [->|Hd]%elem_of_cons; [done|by apply Hdead].
  - right.
    destruct (async_push_nonempty rnd nl p m infected nb Hnb Hne)
      as [[infected' fresh] Hpush].
    unfold async_step, fast_async_step.
    rewrite Hpop, Hpop2, Hnb, Hsub, Hpush. unfold async_finish.
    destruct (reached infected' ec (len nl)) eqn:Hreach; [by left|].
    right. eexists _, _, _. split_and!; [done|done|].
    pose proof (async_push_grows _ _ _ _ _ _ _ Hpush) as Hgrow.
    unfold PushAsynchronousEvent, heappush.
    split; [| | |done].
    + destruct fresh; by rewrite HpermH'.
    + apply async_push_cases in Hpush
        as [[-> ->]|(nb' & c & Hnb' & Hin' & -> & ->)].
      * intros e [->|He]%elem_of_cons; [done|by apply Hok'].
      * assert (Hc : reachable nl s c) by by eapply reachable_edge.
        case_bool_decide.
        -- intros e [->|[->|He]%elem_of_cons]%elem_of_cons;
             [done|done|by apply Hok'].
        -- intros e [->|He]%elem_of_cons; [done|by apply Hok'].
    + intros d Hd. eapply saturated_mono; [exact Hgrow|]. by apply Hdead.
Qed.

(** Whatever the exact estimator returns, the fast one returns. *)
Lemma exact_to_fast fuel infected H G D time :
  agree nl ec s infected H G D →
  run exact_step fuel (infected, H) = Returned time →
  ∃ fuel', run quick_step fuel' (infected, G) = Returned time.
Proof.
  revert infected H G D.
  induction fuel as [|fuel IH]; intros infected H G D Hag; [done|].
  rewrite run_S.
  destruct (heappop H) as [[m H']|e] eqn:Hpop.
  2:{ unfold async_step. by rewrite Hpop. }
  destruct (agree_pop _ _ _ _ _ _ Hag Hpop)
    as [[HD HpermH']|(G' & Hpop2 & HpermH')].
  - destruct (agree_stutter _ _ _ _ _ _ Hag Hpop HD HpermH') as [-> Hag'].
    by apply (IH _ _ _ _ Hag').
  - destruct (agree_live _ _ _ _ _ _ _ Hag Hpop Hpop2 HpermH')
      as [(-> & Hq & Hag')|[(-> & Hq)|(infected' & H2 & G2 & -> & Hq & Hag')]].
    + intros (fuel' & Hrun)%(IH _ _ _ _ Hag').
      exists (S fuel'). by rewrite run_S, Hq.
    + intros [= <-]. exists 1%nat. by rewrite run_S, Hq.
    + intros (fuel' & Hrun)%(IH _ _ _ _ Hag').
      exists (S fuel'). by rewrite run_S, Hq.
Qed.
End AsyncAgreement.

(** *** The exact estimator catches up with the fast one *)

Lemma Qfloor_step (a b : Qc) :
  (0 ≤ b)%Qc → (b + 1 ≤ a)%Qc →
  (Z.to_nat (Qfloor b) < Z.to_nat (Qfloor a))%nat.
Proof.
  intros Hb Hab.
  assert (0 ≤ Qfloor b) as H0.
  { rewrite <- (Qfloor_Z 0). apply Qfloor_resp_le. exact Hb. }
  assert (Qfloor b + 1 ≤ Qfloor a) as H1.
  { rewrite <- (Qfloor_Z (Qfloor b + 1)). apply Qfloor_resp_le.
    unfold Qcle in Hab. simpl in Hab. rewrite Qred_correct in Hab.
    rewrite inject_Z_plus. pose proof (Qfloor_le b) as Hfl.
    change (inject_Z 1) with 1%Q. change (Qred 1) with 1%Q in Hab. lra. }
  lia.
Qed.

Lemma event_le_time a b : event_le a b → (a.1 ≤ b.1)%Qc.
Proof.
  intros [H|[-> _]]; [by apply Qclt_le_weak|apply Qcle_refl].
Qed.

Lemma budget_remove gap m x D :
  x ∈ D → budget gap m D = (lag gap m x + budget gap m (remove_one x D))%nat.
Proof.
  unfold budget. induction D as [|d D IH]; [by intros ?%elem_of_nil|].
  intros Hx. cbn [remove_one]. case_bool_decide as Hd; [by subst|].
  apply elem_of_cons in Hx as [->|Hx]; [done|].
  change (lag gap m d + sum_list (lag gap m <$> D) =
          lag gap m x + (lag gap m d
                         + sum_list (lag gap m <$> remove_one x D)))%nat.
  rewrite (IH Hx). lia.
Qed.

Section AsyncCatchUp.
Context (rnd : async_source) (nl : list (list Z)) (p ec gap : Qc) (s : Z).
Hypothesis nl_sound : sound_from nl s.
Hypothesis gap_pos : (0 < gap)%Qc.
Hypothesis gap_min : ∀ ev, (gap ≤ log_self rnd ev)%Qc.

Local Abbreviation exact_step := (async_step rnd nl p ec).
Local Abbreviation quick_step := (fast_async_step rnd nl p ec (len nl)).

Lemma lag_again m d :
  event_le d m → (lag gap m (again rnd d) < lag gap m d)%nat.
Proof.
  intros Hd. unfold lag. rewrite (bool_decide_eq_true_2 _ Hd).
  case_bool_decide as Hd'; [|lia].
  apply event_le_time in Hd'. unfold again, PoissonSample in *.
  cbn [fst snd] in *. rewrite (right_id 1%Qc Qcdiv) in *.
  assert (gap ≠ 0%Qc) as Hne.
  { intros E. rewrite E in gap_pos. by apply Qclt_not_eq in gap_pos. }
  assert (0 ≤ / gap)%Qc as Hinv by by apply Qclt_le_weak, Qcinv_pos.
  apply -> Nat.succ_lt_mono. apply Qfloor_step.
  - apply Qcmult_nonneg_nonneg; [|done].
    apply Qcle_minus_iff in Hd'. exact Hd'.
  - apply Qcle_minus_iff.
    replace ((m.1 - d.1) / gap +
             - ((m.1 - (d.1 + log_self rnd d)) / gap + 1))%Qc
      with ((log_self rnd d + - gap) * / gap)%Qc by by field.
    apply Qcmult_nonneg_nonneg; [|done].
    apply -> Qcle_minus_iff. apply gap_min.
Qed.

Lemma catch_up k infected H G D m G' :
  agree nl ec s infected H G D → heappop G = Ok (m, G') →
  (budget gap m D ≤ k)%nat →
  ∃ j H1 D1 H1',
    iterate exact_step j (infected, H) = Some (infected, H1) ∧
    agree nl ec s infected H1 G D1 ∧
    heappop H1 = Ok (m, H1') ∧ H1' ≡ₚ G' ++ D1.
Proof.
  revert H D. induction k as [k IH] using lt_wf_ind.
  intros H D Hag Hpop2 Hk.
  destruct (heappop_Ok _ _ _ Hpop2) as (HmG & _ & _).
  assert (m ∈ H) as HmH.
  { rewrite (agree_perm _ _ _ _ _ _ _ Hag). apply elem_of_app. by left. }
  destruct (heappop_nonempty H) as (x & H' & Hpop).
  { intros ->. by apply elem_of_nil in HmH. }
  destruct (agree_pop _ _ _ _ _ _ _ _ _ Hag Hpop)
    as [[HD HpermH']|(G'' & Hpop2' & HpermH')].
  - destruct (agree_stutter rnd nl p ec s nl_sound _ _ _ _ _ _ Hag Hpop HD
                HpermH')
      as [Hstep Hag'].
    assert (event_le x m) as Hxm.
    { destruct (heappop_Ok _ _ _ Hpop) as (_ & Hle & _). by apply Hle. }
    pose proof (lag_again m x Hxm) as Hlag.
    rewrite (budget_remove gap m x D HD) in Hk.
    destruct (IH (lag gap m (again rnd x) + budget gap m (remove_one x D))%nat)
      with (H := again rnd x :: H') (D := again rnd x :: remove_one x D)
      as (j & H1 & D1 & H1' & Hit & Hag1 & Hpop1 & Hperm1);
      [lia|done|done|done|].
    exists (S j), H1, D1, H1'. split_and!; try done.
    by rewrite iterate_S, Hstep.
  - rewrite Hpop2 in Hpop2'. injection Hpop2' as <- <-.
    exists O, H, D, H'. done.
Qed.

(** Whatever the fast estimator returns, the exact one returns. *)
Lemma fast_to_exact fuel infected H G D time :
  agree nl ec s infected H G D →
  run quick_step fuel (infected, G) = Returned time →
  ∃ fuel', run exact_step fuel' (infected, H) = Returned time.
Proof.
  revert infected H G D.
  induction fuel as [|fuel IH]; intros infected H G D Hag; [done|].
  rewrite run_S.
  destruct (heappop G) as [[m G']|e] eqn:Hpop2.
  2:{ unfold fast_async_step. by rewrite Hpop2. }
  destruct (catch_up (budget gap m D) _ _ _ _ _ _ Hag Hpop2)
    as (j & H1 & D1 & H1' & Hit & Hag1 & Hpop1 & Hperm1); [done|].
  destruct (agree_live rnd nl p ec s nl_sound _ _ _ _ _ _ _ Hag1 Hpop1 Hpop2
              Hperm1)
    as [(He & -> & Hag')|[(He & ->)|(infected' & H2 & G2 & He & -> & Hag')]].
  - intros (fuel' & Hrun)%(IH _ _ _ _ Hag').
    exists (j + S fuel')%nat.
    by rewrite (run_iterate _ _ _ _ _ Hit), run_S, He.
  - intros [= <-]. exists (j + 1)%nat.
    by rewrite (run_iterate _ _ _ _ _ Hit), run_S, He.
  - intros (fuel' & Hrun)%(IH _ _ _ _ Hag').
    exists (j + S fuel')%nat.
    by rewrite (run_iterate _ _ _ _ _ Hit), run_S, He.
Qed.
End AsyncCatchUp.

(** *** The first event *)

Lemma agree_init nl ec s time :
  reached {[s]} ec (len nl) = false →
  agree nl ec s {[s]} [(time, s)] [(time, s)] [].
Proof.
  intros Hbelow. split; [done| | |done].
  - intros e ->%list_elem_of_singleton. constructor.
  - by intros d ?%elem_of_nil.
Qed.

(** When the source alone meets the threshold and has a neighbour other than
    itself, both asynchronous estimators return the time of the first
    event. *)
Lemma async_first_event rnd nl p ec s time fuel :
  sound_from nl s →
  reached {[s]} ec (len nl) = true → ¬ saturated nl s {[s]} →
  run (async_step rnd nl p ec) (S fuel) ({[s]}, [(time, s)]) = Returned time ∧
  run (fast_async_step rnd nl p ec (len nl)) (S fuel) ({[s]}, [(time, s)])
  = Returned time.
Proof.
  intros Hsound Hreach Hsat.
  destruct (Hsound s (reachable_source nl s)) as (nb & Hnb & Hne).
  destruct (async_push_nonempty rnd nl p (time, s) {[s]} nb Hnb Hne)
    as [[infected' fresh] Hpush].
  assert (reached infected' ec (len nl) = true) as Hreach'.
  { eapply reached_mono; [|exact Hreach]. by eapply async_push_grows. }
  assert (issubset nb {[s]} = false) as Hsub.
  { destruct (issubset nb {[s]}) eqn:E; [|done].
    destruct Hsat. by apply (issubset_saturated nl s nb). }
  rewrite !run_S. unfold async_step, fast_async_step.
  rewrite heappop_singleton. cbn [snd]. rewrite Hnb, Hsub, Hpush.
  unfold async_finish. by rewrite Hreach'.
Qed.

(** *** Float additions *)

(** The sums of the model cover whatever the float additions of the code
    yield: if [next] is the time the code stores when it reschedules the
    node of [ev], the oracle value [next - ev.1] makes the model store it.
    It is [0] when the addition leaves the time as it is. *)
Lemma again_covers_any_time rnd ev (next : Qc) :
  log_self rnd ev = (next - ev.1)%Qc → again rnd ev = (next, ev.2).
Proof.
  intros Hd. unfold again, PoissonSample. rewrite Hd. f_equal.
  rewrite (right_id 1%Qc Qcdiv). ring.
Qed.

(** ** C1: the fast estimators against the exact ones *)



Lemma no_delay_exact_stalls fuel :
  run (async_step no_delay_async path3 0%Qc 1%Qc) fuel
    ({[0; 1]}, [(1%Qc, 0); (1%Qc, 1)]) = OutOfFuel.
Proof.
  induction fuel as [|fuel IH]; [done|].
  rewrite run_S.
  assert (async_step no_delay_async path3 0%Qc 1%Qc
            ({[0; 1]}, [(1%Qc, 0); (1%Qc, 1)])
          = Next ({[0; 1]}, [((1 + PoissonSample 0 1)%Qc, 0); (1%Qc, 1)]))
    as -> by by vm_compute.
  replace (1 + PoissonSample 0 1)%Qc with 1%Qc; [exact IH|].
  by apply Qc_is_canon.
Qed.


(** ** C8: parameters are not validated *)

Section NoRaise.
Context (arnd : async_source) (nl : list (list Z)) (p ec : Qc).
Hypothesis nl_wf : well_formed nl = true.

Lemma async_finish_ok n ev h pushed :
  heap_ok nl h → in_range nl ev.2 = true →
  (∀ c, pushed.2 = Some c → in_range nl c = true) →
  (∃ time, async_finish arnd ec n ev h pushed = Done time) ∨
  ∃ infected' h', async_finish arnd ec n ev h pushed = Next (infected', h') ∧
                  heap_ok nl h' ∧ h' ≠ [].
Proof.
  intros Hok Hev Hfresh. unfold async_finish.
  destruct pushed as [infected' fresh].
  destruct (reached _ _ _); [left; by eauto|].
  right. eexists _, _. split; [done|].
  unfold PushAsynchronousEvent, heappush. destruct fresh as [c|].
  - split; [|done].
    intros e [->|[->|He]%elem_of_cons]%elem_of_cons; [|done|by apply Hok].
    by apply Hfresh.
  - split; [|done].
    intros e [->|He]%elem_of_cons; [done|by apply Hok].
Qed.

Lemma async_push_fresh ev infected infected' fresh c :
  async_push arnd nl p ev infected = Ok (infected', fresh) →
  fresh = Some c → in_range nl c = true.
Proof.
  intros [[_ ->]|(nb & c' & _ & _ & Hc & _ & ->)]%(async_push_Ok nl nl_wf);
    [done|].
  case_bool_decide; [|done]. by intros [= <-].
Qed.

Lemma async_run_raises_nothing fuel infected h e :
  heap_ok nl h → h ≠ [] →
  run (async_step arnd nl p ec) fuel (infected, h) ≠ Raised e.
Proof.
  revert infected h. induction fuel as [|fuel IH]; intros infected h Hok Hne;
    [done|].
  rewrite run_S. unfold async_step.
  destruct (heappop_nonempty h Hne) as (ev & h' & Hpop). rewrite Hpop.
  destruct (heappop_Ok _ _ _ Hpop) as (Hin & _ & Hperm).
  assert (in_range nl ev.2 = true) as Hev by by apply Hok.
  destruct (async_push_total nl nl_wf arnd p ev infected Hev)
    as [[infected' fresh] Hpush].
  rewrite Hpush.
  destruct (async_finish_ok (len nl) ev h' (infected', fresh))
    as [[time ->]|(infected'' & h'' & -> & Hok' & Hne')]; try done.
  - intros x Hx. apply Hok. rewrite Hperm. by right.
  - intros c Hc. by eapply async_push_fresh.
  - by apply IH.
Qed.

Lemma fast_async_run_raises n fuel infected h e :
  heap_ok nl h →
  run (fast_async_step arnd nl p ec n) fuel (infected, h) = Raised e →
  e = IndexError.
Proof.
  revert infected h. induction fuel as [|fuel IH]; intros infected h Hok;
    [done|].
  rewrite run_S. unfold fast_async_step.
  destruct (heappop h) as [[ev h']|e'] eqn:Hpop.
  2:{ apply heappop_Err in Hpop as [_ ->]. by intros [= <-]. }
  destruct (heappop_Ok _ _ _ Hpop) as (Hin & _ & Hperm).
  assert (in_range nl ev.2 = true) as Hev by by apply Hok.
  assert (heap_ok nl h') as Hok'.
  { intros x Hx. apply Hok. rewrite Hperm. by right. }
  destruct (in_range_getitem nl nl_wf _ Hev) as (nb & -> & _).
  destruct (issubset nb infected); [by apply IH|].
  destruct (async_push_total nl nl_wf arnd p ev infected Hev)
    as [[infected' fresh] Hpush].
  rewrite Hpush.
  destruct (async_finish_ok n ev h' (infected', fresh))
    as [[time ->]|(infected'' & h'' & -> & Hok'' & _)]; try done.
  - intros c Hc. by eapply async_push_fresh.
  - by apply IH.
Qed.
End NoRaise.




(** ** C6: the useful set of the fast synchronous estimator *)

Lemma fast_for_newly rnd nl p t nodes acc acc' :
  fast_for rnd nl p t nodes acc = Ok acc' →
  acc_newly acc ⊆ acc_infected acc → acc_newly acc' ⊆ acc_infected acc'.
Proof.
  revert acc. induction nodes as [|v nodes IH]; intros acc; simpl.
  - by intros [= <-].
  - destruct (py_getitem nl v) as [nb|]; simpl; [|done].
    destruct (issubset nb (acc_infected acc)).
    + intros H Hsub. by apply (IH _ H).
    + destruct (push_attempt rnd nl p t v) as [[c|]|]; simpl; [| |done].
      * intros H Hsub. apply (IH _ H). simpl. by apply union_mono_l.
      * apply IH.
Qed.

(** At every round boundary the useful set is included in the infected
    set. *)
Lemma useful_subseteq_infected walk rnd nl p ec n s st :
  iterate (fast_sync_step walk rnd nl p ec) n (FastState O {[s]} {[s]})
  = Some st →
  fs_useful st ⊆ fs_infected st.
Proof.
  assert (∀ st0, fs_useful st0 ⊆ fs_infected st0 →
            iterate (fast_sync_step walk rnd nl p ec) n st0 = Some st →
            fs_useful st ⊆ fs_infected st) as Hgen.
  { induction n as [|n IH]; intros st0 Hst0; simpl; [by intros [= <-]|].
    unfold fast_sync_step at 1.
    destruct (fast_for _ _ _ _ _ _) as [acc|] eqn:Hacc; [|done].
    destruct (reached _ _ _); [done|].
    apply IH. simpl.
    pose proof (fast_for_grows _ _ _ _ _ _ _ Hacc) as Hgrow.
    pose proof (fast_for_newly _ _ _ _ _ _ _ Hacc) as Hnew.
    simpl in *. etrans; [apply subseteq_difference_l; reflexivity|].
    apply union_least; [by etrans|]. apply Hnew. apply empty_subseteq. }
  apply Hgen. done.
Qed.

(** C6 (the code departs from it).  On the path 0 - 1 - 2 - 3 with source 0,
    node 0 has no uninfected neighbour after the first round; the second
    round removes it from the useful set, and the third round puts it back,
    node 1 having pushed to it: [newly_infected_node_set] collects every
    chosen node, infected before or not. *)
Theorem useless_node_reenters_useful_set :
  iterate (fast_sync_step walk_elements first_neighbour path4 0%Qc 1%Qc) 2
    (FastState O {[0]} {[0]}) = Some (FastState 2 {[0; 1]} {[1]}) ∧
  iterate (fast_sync_step walk_elements first_neighbour path4 0%Qc 1%Qc) 3
    (FastState O {[0]} {[0]}) = Some (FastState 3 {[0; 1]} {[0; 1]}) ∧
  saturated path4 0 {[0; 1]}.
Proof.
  split_and!; [by vm_compute|by vm_compute|].
  intros nb c Hnb Hc. injection Hnb as <-.
  apply list_elem_of_singleton in Hc as ->. set_solver.
Qed.

(** * Further properties of the estimators *)

(** ** Invariants along a run *)

Lemma iterate_invariant {St A : Type} (step : St → step_result St A)
    (P : St → Prop) n s0 s :
  (∀ a b, P a → step a = Next b → P b) →
  P s0 → iterate step n s0 = Some s → P s.
Proof.
  intros Hstep. revert s0. induction n as [|n IH]; intros s0 H0; simpl.
  - by intros [= <-].
  - destruct (step s0) as [s1| |] eqn:E; try done.
    apply IH. by eapply Hstep.
Qed.

Lemma run_Returned_invariant {St A : Type} (step : St → step_result St A)
    (P : St → Prop) fuel s0 a :
  (∀ a b, P a → step a = Next b → P b) →
  P s0 → run step fuel s0 = Returned a →
  ∃ n s, (n < fuel)%nat ∧ iterate step n s0 = Some s ∧ P s ∧ step s = Done a.
Proof.
  intros Hstep H0 (n & s & Hn & Hit & Hd)%run_Returned_inv.
  exists n, s. split_and!; try done. by eapply iterate_invariant.
Qed.

Lemma run_Raised_invariant {St A : Type} (step : St → step_result St A)
    (P : St → Prop) fuel s0 e :
  (∀ a b, P a → step a = Next b → P b) →
  P s0 → run step fuel s0 = Raised e →
  ∃ n s, (n < fuel)%nat ∧ iterate step n s0 = Some s ∧ P s ∧ step s = Fail e.
Proof.
  intros Hstep. revert s0. induction fuel as [|fuel IH]; intros s0 H0;
    simpl; [done|].
  destruct (step s0) as [s1| |e'] eqn:Hs; try done.
  - intros (n & s & Hn & Hit & HP & Hf)%IH; [|by eapply Hstep].
    exists (S n), s. split_and!; [lia| |done|done].
    by rewrite iterate_S, Hs.
  - intros [= ->]. exists O, s0. split_and!; [lia|done|done|done].
Qed.

Lemma fast_for_pushed rnd nl p t nodes acc acc' :
  fast_for rnd nl p t nodes acc = Ok acc' →
  ∀ x, x ∈ acc_infected acc' →
       x ∈ acc_infected acc ∨
       ∃ v, v ∈ nodes ∧ push_attempt rnd nl p t v = Ok (Some x).
Proof.
  revert acc. induction nodes as [|v nodes IH]; intros acc; simpl.
  - intros [= <-]. by left.
  - destruct (py_getitem nl v) as [nb|]; simpl; [|done].
    destruct (issubset nb (acc_infected acc)).
    + intros H x [?|(w & Hw & Hp)]%(IH _ H); [by left|].
      right. exists w. split; [by right|done].
    + destruct (push_attempt rnd nl p t v) as [[c|]|] eqn:Hv; simpl;
        [| |done].
      * intros H x [[->%elem_of_singleton|?]%elem_of_union|(w & Hw & Hp)]%(IH _ H).
        -- right. exists v. split; [left|done].
        -- by left.
        -- right. exists w. split; [by right|done].
      * intros H x [?|(w & Hw & Hp)]%(IH _ H); [by left|].
        right. exists w. split; [by right|done].
Qed.

Lemma closed_spec nl R u nb v :
  closed nl R = true → u ∈ R → py_getitem nl u = Ok nb → v ∈ nb → v ∈ R.
Proof.
  unfold closed. rewrite forallb_forall. intros Hc Hu Hnb Hv.
  specialize (Hc u). rewrite Hnb in Hc.
  rewrite forallb_forall in Hc.
  apply (bool_decide_eq_true_1 (v ∈ R)). apply Hc.
  - apply list_elem_of_In. by apply elem_of_elements.
  - by apply list_elem_of_In.
Qed.

Lemma reachable_closed nl R s v :
  closed nl R = true → s ∈ R → reachable nl s v → v ∈ R.
Proof.
  intros Hc Hs. induction 1 as [|u nb v _ IH Hnb Hv]; [done|].
  by eapply closed_spec.
Qed.

Lemma spread_closed nl R s X :
  closed nl R = true → s ∈ R → spread nl s X → X ⊆ R.
Proof.
  intros Hc Hs [_ HX] v Hv. eapply reachable_closed; eauto.
Qed.

Lemma spread_source nl s : spread nl s {[s]}.
Proof.
  split; [by apply elem_of_singleton|].
  intros v ->%elem_of_singleton. constructor.
Qed.

Section Spreading.
Context (walk : nat → gset Z → list Z).
Context (rnd : sync_source) (arnd : async_source).
Context (nl : list (list Z)) (p ec : Qc) (s : Z).
Hypothesis walk_enum : enumerates walk.

Lemma sync_round_spread t infected newly :
  spread nl s infected →
  sync_for rnd nl p t (walk t infected) ∅ = Ok newly →
  spread nl s (infected ∪ newly).
Proof.
  intros [Hs Hreach] [_ Hin]%sync_for_Ok. split.
  - apply elem_of_union. by left.
  - intros x [Hx|Hx]%elem_of_union; [by apply Hreach|].
    apply Hin in Hx as [?%elem_of_empty|(v & Hv & Hp)]; [done|].
    apply (enumerates_elem_of _ _ _ _ walk_enum) in Hv.
    apply push_attempt_edge in Hp as (_ & nb & Hnb & Hx).
    eapply reachable_edge; eauto.
Qed.

Lemma fast_round_spread t infected useful acc :
  spread nl s infected → useful ⊆ infected →
  fast_for rnd nl p t (walk t useful) (FastAcc infected ∅ ∅) = Ok acc →
  spread nl s (acc_infected acc).
Proof.
  intros [Hs Hreach] Hsub Hfor. split.
  - by apply (fast_for_grows _ _ _ _ _ _ _ Hfor).
  - intros x [Hx|(v & Hv & Hp)]%(fast_for_pushed _ _ _ _ _ _ _ Hfor);
      [by apply Hreach|].
    apply (enumerates_elem_of _ _ _ _ walk_enum) in Hv.
    apply push_attempt_edge in Hp as (_ & nb & Hnb & Hx).
    eapply reachable_edge; [apply Hreach, Hsub, Hv|exact Hnb|exact Hx].
Qed.

Lemma async_push_spread ev infected infected' fresh :
  spread nl s infected → ev.2 ∈ infected →
  async_push arnd nl p ev infected = Ok (infected', fresh) →
  spread nl s infected' ∧ infected ⊆ infected' ∧
  ∀ c, fresh = Some c → c ∈ infected'.
Proof.
  intros [Hs Hreach] Hev
    [[-> ->]|(nb & c & Hnb & Hc & -> & ->)]%async_push_cases.
  - split_and!; done.
  - split_and!.
    + split; [apply elem_of_union; by right|].
      intros x [->%elem_of_singleton|Hx]%elem_of_union; [|by apply Hreach].
      eapply reachable_edge; eauto.
    + apply union_subseteq_r.
    + intros c'. case_bool_decide; [|done]. intros [= <-].
      apply elem_of_union. left. by apply elem_of_singleton.
Qed.

(** The invariants of the four loops. *)
Lemma sync_step_spread st st' :
  spread nl s st.2 → sync_step walk rnd nl p ec st = Next st' →
  spread nl s st'.2.
Proof.
  destruct st as [t infected]. simpl. intros Hsp. unfold sync_step.
  destruct (sync_for _ _ _ _ _ _) as [newly|] eqn:Hfor; [|done].
  destruct (reached _ _ _); [done|]. intros [= <-]. simpl.
  by apply (sync_round_spread t).
Qed.

Lemma fast_sync_step_spread st st' :
  spread nl s (fs_infected st) ∧ fs_useful st ⊆ fs_infected st →
  fast_sync_step walk rnd nl p ec st = Next st' →
  spread nl s (fs_infected st') ∧ fs_useful st' ⊆ fs_infected st'.
Proof.
  intros [Hsp Hsub]. unfold fast_sync_step.
  destruct (fast_for _ _ _ _ _ _) as [acc|] eqn:Hfor; [|done].
  destruct (reached _ _ _); [done|]. intros [= <-]. simpl. split.
  - by eapply fast_round_spread.
  - pose proof (fast_for_grows _ _ _ _ _ _ _ Hfor) as Hgrow.
    pose proof (fast_for_newly _ _ _ _ _ _ _ Hfor) as Hnew.
    simpl in *. etrans; [apply subseteq_difference_l; reflexivity|].
    apply union_least; [by etrans|]. apply Hnew. apply empty_subseteq.
Qed.

Lemma async_finish_Next n ev h pushed st' :
  async_finish arnd ec n ev h pushed = Next st' →
  reached pushed.1 ec n = false ∧ st'.1 = pushed.1 ∧
  st'.2 = match pushed.2 with
          | Some c =>
              ((ev.1 + PoissonSample (log_chosen arnd ev) 1)%Qc, c)
              :: again arnd ev :: h
          | None => again arnd ev :: h
          end.
Proof.
  unfold async_finish. destruct pushed as [infected fresh].
  destruct (reached _ _ _); [done|]. intros [= <-].
  by destruct fresh.
Qed.

Lemma async_finish_Done n ev h pushed time :
  async_finish arnd ec n ev h pushed = Done time →
  reached pushed.1 ec n = true ∧ time = ev.1.
Proof.
  unfold async_finish. destruct pushed as [infected fresh].
  destruct (reached _ _ _); [|done]. by intros [= <-].
Qed.

Lemma async_step_spread st st' :
  spread nl s st.1 ∧ (∀ e, e ∈ st.2 → e.2 ∈ st.1) →
  async_step arnd nl p ec st = Next st' →
  spread nl s st'.1 ∧ (∀ e, e ∈ st'.2 → e.2 ∈ st'.1).
Proof.
  destruct st as [infected h]. simpl. intros [Hsp Hh]. unfold async_step.
  destruct (heappop h) as [[ev h']|] eqn:Hpop; [|done].
  destruct (heappop_Ok _ _ _ Hpop) as (Hin & _ & Hperm).
  destruct (async_push _ _ _ _ _) as [[infected' fresh]|] eqn:Hp; [|done].
  destruct (async_push_spread _ _ _ _ Hsp (Hh _ Hin) Hp)
    as (Hsp' & Hgrow & Hfresh).
  intros (_ & -> & ->)%async_finish_Next. simpl. split; [done|].
  assert (∀ e, e ∈ again arnd ev :: h' → e.2 ∈ infected') as Hrest.
  { intros e [->|He]%elem_of_cons; apply Hgrow; [exact (Hh _ Hin)|].
    apply Hh. rewrite Hperm. by right. }
  destruct fresh as [c|]; [|done].
  intros e [->|He]%elem_of_cons; [by apply Hfresh|by apply Hrest].
Qed.

Lemma fast_async_step_spread n st st' :
  spread nl s st.1 ∧ (∀ e, e ∈ st.2 → e.2 ∈ st.1) →
  fast_async_step arnd nl p ec n st = Next st' →
  spread nl s st'.1 ∧ (∀ e, e ∈ st'.2 → e.2 ∈ st'.1).
Proof.
  destruct st as [infected h]. simpl. intros [Hsp Hh]. unfold fast_async_step.
  destruct (heappop h) as [[ev h']|] eqn:Hpop; [|done].
  destruct (heappop_Ok _ _ _ Hpop) as (Hin & _ & Hperm).
  destruct (py_getitem nl ev.2) as [nb|]; [|done].
  destruct (issubset nb infected).
  { intros [= <-]. simpl. split; [done|].
    intros e He. apply Hh. rewrite Hperm. by right. }
  destruct (async_push _ _ _ _ _) as [[infected' fresh]|] eqn:Hp; [|done].
  destruct (async_push_spread _ _ _ _ Hsp (Hh _ Hin) Hp)
    as (Hsp' & Hgrow & Hfresh).
  intros (_ & -> & ->)%async_finish_Next. simpl. split; [done|].
  assert (∀ e, e ∈ again arnd ev :: h' → e.2 ∈ infected') as Hrest.
  { intros e [->|He]%elem_of_cons; apply Hgrow; [exact (Hh _ Hin)|].
    apply Hh. rewrite Hperm. by right. }
  destruct fresh as [c|]; [|done].
  intros e [->|He]%elem_of_cons; [by apply Hfresh|by apply Hrest].
Qed.

Lemma async_init_spread :
  spread nl s (async_init arnd s).1 ∧
  (∀ e, e ∈ (async_init arnd s).2 → e.2 ∈ (async_init arnd s).1).
Proof.
  split; [apply spread_source|].
  intros e ->%list_elem_of_singleton. by apply elem_of_singleton.
Qed.
End Spreading.

(** ** X1: infection follows the edges *)



(** ** X2: a threshold out of reach *)

Lemma exact_threshold_three_quarters : exact_threshold (Q2Qc (3 # 4)) 4.
Proof.
  split_and!.
  - exists 3, 2%nat, 0%nat. split_and!; [done|lia|lia|by apply Qc_is_canon].
  - by vm_compute.
  - exists 3, 0%nat, 0%nat. split_and!; [done|lia|lia|by apply Qc_is_canon].
Qed.

Section OutOfReach.
Context (walk : nat → gset Z → list Z).
Context (rnd : sync_source) (arnd : async_source).
Context (nl : list (list Z)) (p ec : Qc) (s : Z) (R : gset Z).
Hypothesis walk_enum : enumerates walk.
Hypothesis R_closed : closed nl R = true.
Hypothesis R_source : s ∈ R.

Lemma spread_below n X :
  reached R ec n = false → spread nl s X → reached X ec n = false.
Proof.
  intros HR HX. destruct (reached X ec n) eqn:E; [|done].
  rewrite (reached_mono X R ec n) in HR; [done| |done].
  by eapply spread_closed.
Qed.

Lemma sync_never_returns fuel r :
  reached R ec (len nl) = false →
  EstimateSynchronousGossipTime walk rnd nl p ec fuel s 0 ≠ Returned r.
Proof.
  intros HR Hrun.
  apply (run_Returned_invariant _ (λ st, spread nl s st.2)) in Hrun
    as (k & [t infected] & _ & _ & Hsp & Hdone).
  - unfold sync_step in Hdone. simpl in Hsp.
    destruct (sync_for _ _ _ _ _ _) as [newly|] eqn:Hfor; [|done].
    rewrite (spread_below _ (infected ∪ newly)) in Hdone; [done|done|].
    by apply (sync_round_spread walk rnd nl p s walk_enum t).
  - intros a b. by apply sync_step_spread.
  - apply spread_source.
Qed.

Lemma fast_sync_never_returns fuel r :
  reached R ec (len nl) = false →
  FastEstimateSynchronousGossipTime walk rnd nl p ec fuel s 0 ≠ Returned r.
Proof.
  intros HR Hrun.
  apply (run_Returned_invariant _
           (λ st, spread nl s (fs_infected st)
                  ∧ fs_useful st ⊆ fs_infected st)) in Hrun
    as (k & st & _ & _ & [Hsp Hsub] & Hdone).
  - unfold fast_sync_step in Hdone.
    destruct (fast_for _ _ _ _ _ _) as [acc|] eqn:Hfor; [|done].
    rewrite (spread_below _ (acc_infected acc)) in Hdone; [done|done|].
    by eapply fast_round_spread.
  - intros a b. by apply fast_sync_step_spread.
  - split; [apply spread_source|done].
Qed.

Lemma async_never_returns fuel r :
  reached R ec (len nl) = false →
  EstimateAsynchronousGossipTime arnd nl p ec fuel s 0 ≠ Returned r.
Proof.
  intros HR Hrun.
  apply (run_Returned_invariant _
           (λ st, spread nl s st.1 ∧ ∀ e, e ∈ st.2 → e.2 ∈ st.1)) in Hrun
    as (k & [infected h] & _ & _ & [Hsp Hh] & Hdone).
  - unfold async_step in Hdone. simpl in *.
    destruct (heappop h) as [[ev h']|] eqn:Hpop; [|done].
    destruct (heappop_Ok _ _ _ Hpop) as (Hin & _ & _).
    destruct (async_push _ _ _ _ _) as [[infected' fresh]|] eqn:Hp; [|done].
    destruct (async_push_spread _ _ _ _ _ _ _ _ Hsp (Hh _ Hin) Hp)
      as (Hsp' & _ & _).
    apply async_finish_Done in Hdone as [Hdone _]. simpl in Hdone.
    by rewrite (spread_below _ infected') in Hdone.
  - intros a b. apply async_step_spread.
  - apply async_init_spread.
Qed.

Lemma fast_async_never_returns n fuel r :
  reached R ec n = false →
  FastEstimateAsynchronousGossipTime arnd nl p ec fuel s n ≠ Returned r.
Proof.
  intros HR Hrun.
  apply (run_Returned_invariant _
           (λ st, spread nl s st.1 ∧ ∀ e, e ∈ st.2 → e.2 ∈ st.1)) in Hrun
    as (k & [infected h] & _ & _ & [Hsp Hh] & Hdone).
  - unfold fast_async_step in Hdone. simpl in *.
    destruct (heappop h) as [[ev h']|] eqn:Hpop; [|done].
    destruct (heappop_Ok _ _ _ Hpop) as (Hin & _ & _).
    destruct (py_getitem nl ev.2) as [nb|]; [|done].
    destruct (issubset nb infected); [done|].
    destruct (async_push _ _ _ _ _) as [[infected' fresh]|] eqn:Hp; [|done].
    destruct (async_push_spread _ _ _ _ _ _ _ _ Hsp (Hh _ Hin) Hp)
      as (Hsp' & _ & _).
    apply async_finish_Done in Hdone as [Hdone _]. simpl in Hdone.
    by rewrite (spread_below _ infected') in Hdone.
  - intros a b. apply fast_async_step_spread.
  - apply async_init_spread.
Qed.
End OutOfReach.

(** X2.  When the source lies in a set of nodes that holds every neighbour
    of its nodes and is too small to meet the threshold, no estimator ever
    returns, whatever the draws and the number of iterations: the loops have
    no other exit.  The threshold product is taken to be exact
    ([exact_threshold]), so that the test [reached] makes on the set is the
    test of the code. *)
Theorem unreachable_threshold_never_returned walk rnd arnd nl p ec s N R :
  enumerates walk → closed nl R = true → s ∈ R →
  (exact_threshold ec (len nl) → reached R ec (len nl) = false →
   (∀ fuel r,
      EstimateSynchronousGossipTime walk rnd nl p ec fuel s N ≠ Returned r) ∧
   (∀ fuel r,
      FastEstimateSynchronousGossipTime walk rnd nl p ec fuel s N
      ≠ Returned r) ∧
   (∀ fuel r,
      EstimateAsynchronousGossipTime arnd nl p ec fuel s N ≠ Returned r)) ∧
  (exact_threshold ec N → reached R ec N = false →
   ∀ fuel r,
     FastEstimateAsynchronousGossipTime arnd nl p ec fuel s N ≠ Returned r).
Proof.
  intros Hw Hc Hs. split.
  - intros _ HR. split_and!; intros fuel r.
    + by apply (sync_never_returns walk rnd nl p ec s R).
    + by apply (fast_sync_never_returns walk rnd nl p ec s R).
    + by apply (async_never_returns arnd nl p ec s R).
  - intros _ HR fuel r.
    by apply (fast_async_never_returns arnd nl p ec s R).
Qed.

Lemma unreachable_threshold_never_returned_witness :
  (∀ fuel r,
     EstimateSynchronousGossipTime walk_elements by_index_sync two_pairs 0%Qc
       (Q2Qc (3 # 4)) fuel 0 4 ≠ Returned r) ∧
  (∀ fuel r,
     FastEstimateAsynchronousGossipTime by_index_async two_pairs 0%Qc
       (Q2Qc (3 # 4)) fuel 0 4 ≠ Returned r).
Proof.
  destruct (unreachable_threshold_never_returned walk_elements by_index_sync
              by_index_async two_pairs 0%Qc (Q2Qc (3 # 4)) 0 4 {[0; 1]})
    as [H1 H2].
  - exact walk_elements_enumerates.
  - by vm_compute.
  - apply elem_of_union. left. by apply elem_of_singleton.
  - split.
    + apply H1; [exact exact_threshold_three_quarters|by vm_compute].
    + apply H2; [exact exact_threshold_three_quarters|by vm_compute].
Defined.

(** ** X3 and X4: how fast the infected set can grow *)

Lemma size_union_le (X Y : gset Z) : (size (X ∪ Y) ≤ size X + size Y)%nat.
Proof.
  rewrite size_union_alt.
  assert (size (Y ∖ X) ≤ size Y)%nat; [|lia].
  apply subseteq_size, subseteq_difference_l. done.
Qed.

Lemma size_add_le (c : Z) (X : gset Z) : (size ({[c]} ∪ X) ≤ S (size X))%nat.
Proof.
  etrans; [apply size_union_le|]. by rewrite size_singleton.
Qed.

Lemma enumerates_length walk t X :
  enumerates walk → length (walk t X) = size X.
Proof. intros H. by rewrite (H t X). Qed.

Lemma reached_bound X ec n (k : nat) :
  reached X ec n = true → (size X ≤ k)%nat →
  (ec * Qc_of_Z n ≤ Qc_of_Z (Z.of_nat k))%Qc.
Proof.
  unfold reached. rewrite bool_decide_eq_true. intros H Hk.
  eapply Qcle_trans; [exact H|].
  apply (proj1 (Z2Qc_inj_le (Z.of_nat (size X)) (Z.of_nat k))). lia.
Qed.

Lemma sync_for_size rnd nl p t nodes newly0 newly :
  sync_for rnd nl p t nodes newly0 = Ok newly →
  (size newly ≤ size newly0 + length nodes)%nat.
Proof.
  revert newly0. induction nodes as [|v nodes IH]; intros newly0; simpl.
  - intros [= <-]. lia.
  - destruct (push_attempt rnd nl p t v) as [[c|]|]; simpl; [| |done].
    + intros H%IH. pose proof (size_add_le c newly0). lia.
    + intros H%IH. lia.
Qed.

Lemma fast_for_size rnd nl p t nodes acc acc' :
  fast_for rnd nl p t nodes acc = Ok acc' →
  (size (acc_infected acc') ≤ size (acc_infected acc) + length nodes)%nat.
Proof.
  revert acc. induction nodes as [|v nodes IH]; intros acc; simpl.
  - intros [= <-]. lia.
  - destruct (py_getitem nl v) as [nb|]; simpl; [|done].
    destruct (issubset nb (acc_infected acc)).
    + intros H%IH. simpl in H. lia.
    + destruct (push_attempt rnd nl p t v) as [[c|]|]; simpl; [| |done].
      * intros H%IH. simpl in H.
        pose proof (size_add_le c (acc_infected acc)). lia.
      * intros H%IH. lia.
Qed.

Lemma async_push_size rnd nl p ev infected infected' fresh :
  async_push rnd nl p ev infected = Ok (infected', fresh) →
  (size infected' ≤ S (size infected))%nat.
Proof.
  intros [[-> _]|(nb & c & _ & _ & -> & _)]%async_push_cases; [lia|].
  apply size_add_le.
Qed.

Lemma fast_sync_iterate_counter walk rnd nl p ec n st st' :
  iterate (fast_sync_step walk rnd nl p ec) n st = Some st' →
  fs_t st' = (n + fs_t st)%nat.
Proof.
  revert st. induction n as [|n IH]; intros st; simpl.
  - by intros [= <-].
  - unfold fast_sync_step at 1.
    destruct (fast_for _ _ _ _ _ _) as [acc|]; [|done].
    destruct (reached _ _ _); [done|].
    intros ->%IH. simpl. lia.
Qed.

Section Growth.
Context (walk : nat → gset Z → list Z).
Context (rnd : sync_source) (arnd : async_source).
Context (nl : list (list Z)) (p ec : Qc) (s : Z).
Hypothesis walk_enum : enumerates walk.

Lemma sync_round_size t infected newly :
  sync_for rnd nl p t (walk t infected) ∅ = Ok newly →
  (size (infected ∪ newly) ≤ 2 * size infected)%nat.
Proof.
  intros H%sync_for_size. rewrite size_empty, enumerates_length in H by done.
  pose proof (size_union_le infected newly). lia.
Qed.

Lemma fast_round_size t infected useful acc :
  useful ⊆ infected →
  fast_for rnd nl p t (walk t useful) (FastAcc infected ∅ ∅) = Ok acc →
  (size (acc_infected acc) ≤ 2 * size infected)%nat.
Proof.
  intros Hsub%subseteq_size H%fast_for_size.
  rewrite enumerates_length in H by done. simpl in H. lia.
Qed.

Lemma sync_step_doubles st st' :
  (size st.2 ≤ 2 ^ st.1)%nat →
  sync_step walk rnd nl p ec st = Next st' →
  (size st'.2 ≤ 2 ^ st'.1)%nat.
Proof.
  destruct st as [t infected]. simpl. intros Hsz. unfold sync_step.
  destruct (sync_for _ _ _ _ _ _) as [newly|] eqn:Hfor; [|done].
  destruct (reached _ _ _); [done|]. intros [= <-].
  apply sync_round_size in Hfor. simpl. lia.
Qed.

Lemma fast_sync_step_doubles st st' :
  (size (fs_infected st) ≤ 2 ^ fs_t st)%nat ∧ fs_useful st ⊆ fs_infected st →
  fast_sync_step walk rnd nl p ec st = Next st' →
  (size (fs_infected st') ≤ 2 ^ fs_t st')%nat ∧
  fs_useful st' ⊆ fs_infected st'.
Proof.
  intros [Hsz Hsub]. unfold fast_sync_step.
  destruct (fast_for _ _ _ _ _ _) as [acc|] eqn:Hfor; [|done].
  destruct (reached _ _ _); [done|]. intros [= <-]. simpl. split.
  - apply fast_round_size in Hfor; [|done]. simpl. lia.
  - pose proof (fast_for_grows _ _ _ _ _ _ _ Hfor) as Hgrow.
    pose proof (fast_for_newly _ _ _ _ _ _ _ Hfor) as Hnew.
    simpl in *. etrans; [apply subseteq_difference_l; reflexivity|].
    apply union_least; [by etrans|]. apply Hnew. apply empty_subseteq.
Qed.
End Growth.

(** X3.  A round of a synchronous estimator at most doubles the infected
    set, each walked node choosing at most one neighbour: after [n] rounds at
    most [2^n] nodes are infected.  Hence a returned round count [r] is at
    least 1, at most the number of rounds run, and satisfies
    [end_criteria * len(neighbor_list) <= 2^r] when that product is
    computed exactly ([exact_threshold]). *)
Theorem synchronous_spreading_at_most_doubles walk rnd nl p ec s N :
  enumerates walk →
  (∀ n st,
     iterate (sync_step walk rnd nl p ec) n (O, {[s]}) = Some st →
     (size st.2 ≤ 2 ^ n)%nat) ∧
  (∀ n st,
     iterate (fast_sync_step walk rnd nl p ec) n (FastState O {[s]} {[s]})
     = Some st →
     (size (fs_infected st) ≤ 2 ^ n)%nat) ∧
  (∀ fuel r,
     EstimateSynchronousGossipTime walk rnd nl p ec fuel s N = Returned r →
     (1 ≤ r ≤ fuel)%nat ∧
     (exact_threshold ec (len nl) →
      (ec * Qc_of_Z (len nl) ≤ Qc_of_Z (Z.of_nat (2 ^ r)))%Qc)) ∧
  (∀ fuel r,
     FastEstimateSynchronousGossipTime walk rnd nl p ec fuel s N
     = Returned r →
     (1 ≤ r ≤ fuel)%nat ∧
     (exact_threshold ec (len nl) →
      (ec * Qc_of_Z (len nl) ≤ Qc_of_Z (Z.of_nat (2 ^ r)))%Qc)).
Proof.
  intros Hw.
  assert (Hsync : ∀ n st,
            iterate (sync_step walk rnd nl p ec) n (O, {[s]}) = Some st →
            (size st.2 ≤ 2 ^ st.1)%nat ∧ st.1 = n).
  { intros n st Hit. split.
    - eapply (iterate_invariant _ (λ st, (size st.2 ≤ 2 ^ st.1)%nat));
        [|..|exact Hit].
      + intros a b. by apply sync_step_doubles.
      + cbn [fst snd fs_infected fs_t fs_useful]. rewrite size_singleton.
        simpl. done.
    - apply sync_iterate_counter in Hit. simpl in Hit. lia. }
  assert (Hfast : ∀ n st,
            iterate (fast_sync_step walk rnd nl p ec) n
              (FastState O {[s]} {[s]}) = Some st →
            ((size (fs_infected st) ≤ 2 ^ fs_t st)%nat
             ∧ fs_useful st ⊆ fs_infected st) ∧ fs_t st = n).
  { intros n st Hit. split.
    - eapply (iterate_invariant _
                (λ st, (size (fs_infected st) ≤ 2 ^ fs_t st)%nat
                       ∧ fs_useful st ⊆ fs_infected st)); [|..|exact Hit].
      + intros a b. by apply fast_sync_step_doubles.
      + cbn [fst snd fs_infected fs_t fs_useful]. rewrite size_singleton.
        simpl. done.
    - apply fast_sync_iterate_counter in Hit. simpl in Hit. lia. }
  split_and!.
  - intros n st [Hsz <-]%Hsync. done.
  - intros n st [[Hsz _] <-]%Hfast. done.
  - intros fuel r (n & [t infected] & Hn & Hit & Hdone)%run_Returned_inv.
    apply Hsync in Hit as [Hsz Ht]. simpl in *. subst t.
    unfold sync_step in Hdone.
    destruct (sync_for _ _ _ _ _ _) as [newly|] eqn:Hfor; [|done].
    destruct (reached _ _ _) eqn:Hr; [|done]. injection Hdone as <-.
    split; [lia|]. intros _. eapply reached_bound; [exact Hr|].
    apply (sync_round_size walk rnd nl p Hw) in Hfor.
    rewrite Nat.pow_succ_r'. lia.
  - intros fuel r (n & st & Hn & Hit & Hdone)%run_Returned_inv.
    apply Hfast in Hit as [[Hsz Hsub] Ht].
    unfold fast_sync_step in Hdone.
    destruct (fast_for _ _ _ _ _ _) as [acc|] eqn:Hfor; [|done].
    destruct (reached _ _ _) eqn:Hr; [|done]. injection Hdone as <-.
    rewrite Ht. split; [lia|]. intros _. eapply reached_bound; [exact Hr|].
    apply (fast_round_size walk rnd nl p Hw) in Hfor; [|done].
    rewrite Nat.pow_succ_r'. rewrite Ht in Hsz. lia.
Qed.

Lemma synchronous_spreading_at_most_doubles_witness :
  (1 ≤ 2 ≤ 5)%nat ∧
  (Q2Qc (3 # 4) * Qc_of_Z (len cycle4) ≤ Qc_of_Z (Z.of_nat (2 ^ 2)))%Qc.
Proof.
  destruct (synchronous_spreading_at_most_doubles walk_elements by_index_sync
              cycle4 0%Qc (Q2Qc (3 # 4)) 0 4 walk_elements_enumerates)
    as (_ & _ & H & _).
  destruct (H 5%nat 2%nat) as [Hr Hbound]; [by vm_compute|].
  split; [exact Hr|]. apply Hbound. exact exact_threshold_three_quarters.
Defined.

(** X4.  An event of an asynchronous estimator infects at most one node:
    after [n] events at most [n + 1] nodes are infected, and a call that
    returns within [fuel] events has
    [end_criteria * N <= fuel + 1] when that product is computed exactly
    ([exact_threshold]), [N] being [len(neighbor_list)] for the exact
    estimator and [number_of_nodes] for the fast one. *)
Theorem asynchronous_spreading_one_per_event arnd nl p ec s N :
  (∀ n st,
     iterate (async_step arnd nl p ec) n (async_init arnd s) = Some st →
     (size st.1 ≤ S n)%nat) ∧
  (∀ n st,
     iterate (fast_async_step arnd nl p ec N) n (async_init arnd s) = Some st →
     (size st.1 ≤ S n)%nat) ∧
  (exact_threshold ec (len nl) →
   ∀ fuel time,
     EstimateAsynchronousGossipTime arnd nl p ec fuel s N = Returned time →
     (ec * Qc_of_Z (len nl) ≤ Qc_of_Z (Z.of_nat (S fuel)))%Qc) ∧
  (exact_threshold ec N →
   ∀ fuel time,
     FastEstimateAsynchronousGossipTime arnd nl p ec fuel s N
     = Returned time →
     (ec * Qc_of_Z N ≤ Qc_of_Z (Z.of_nat (S fuel)))%Qc).
Proof.
  assert (Hstep : ∀ st st',
            async_step arnd nl p ec st = Next st' →
            (size st'.1 ≤ S (size st.1))%nat).
  { intros [infected h] st'. unfold async_step.
    destruct (heappop h) as [[ev h']|]; [|done].
    destruct (async_push _ _ _ _ _) as [[infected' fresh]|] eqn:Hp; [|done].
    intros ->%async_finish_infected. simpl. by eapply async_push_size. }
  assert (Hfstep : ∀ st st',
            fast_async_step arnd nl p ec N st = Next st' →
            (size st'.1 ≤ S (size st.1))%nat).
  { intros [infected h] st'. unfold fast_async_step.
    destruct (heappop h) as [[ev h']|]; [|done].
    destruct (py_getitem nl ev.2) as [nb|]; [|done].
    destruct (issubset nb infected); [intros [= <-]; simpl; lia|].
    destruct (async_push _ _ _ _ _) as [[infected' fresh]|] eqn:Hp; [|done].
    intros ->%async_finish_infected. simpl. by eapply async_push_size. }
  assert (Hgen : ∀ (step : gset Z * list event
                           → step_result (gset Z * list event) Qc),
            (∀ st st', step st = Next st' → (size st'.1 ≤ S (size st.1))%nat) →
            ∀ n st0 st, iterate step n st0 = Some st →
                        (size st.1 ≤ n + size st0.1)%nat).
  { intros step Hs n. induction n as [|n IH]; intros st0 st; simpl.
    - intros [= <-]. lia.
    - destruct (step st0) as [st1| |] eqn:E; try done.
      intros H%IH. apply Hs in E. lia. }
  assert (Hinit : size (async_init arnd s).1 = 1%nat)
    by apply size_singleton.
  split_and!.
  - intros n st H%(Hgen _ Hstep). rewrite Hinit in H. lia.
  - intros n st H%(Hgen _ Hfstep). rewrite Hinit in H. lia.
  - intros _ fuel time
      (n & [infected h] & Hn & Hit & Hdone)%run_Returned_inv.
    apply (Hgen _ Hstep) in Hit. rewrite Hinit in Hit. cbn [fst] in Hit.
    unfold async_step in Hdone.
    destruct (heappop h) as [[ev h']|]; [|done].
    destruct (async_push _ _ _ _ _) as [[infected' fresh]|] eqn:Hp; [|done].
    apply async_finish_Done in Hdone as [Hr _].
    eapply reached_bound; [exact Hr|]. apply async_push_size in Hp.
    simpl. lia.
  - intros _ fuel time
      (n & [infected h] & Hn & Hit & Hdone)%run_Returned_inv.
    apply (Hgen _ Hfstep) in Hit. rewrite Hinit in Hit. cbn [fst] in Hit.
    unfold fast_async_step in Hdone.
    destruct (heappop h) as [[ev h']|]; [|done].
    destruct (py_getitem nl ev.2) as [nb|]; [|done].
    destruct (issubset nb infected); [done|].
    destruct (async_push _ _ _ _ _) as [[infected' fresh]|] eqn:Hp; [|done].
    apply async_finish_Done in Hdone as [Hr _].
    eapply reached_bound; [exact Hr|]. apply async_push_size in Hp.
    simpl. lia.
Qed.

Lemma asynchronous_spreading_one_per_event_witness :
  (Q2Qc (3 # 4) * Qc_of_Z (len cycle4) ≤ Qc_of_Z (Z.of_nat (S 5)))%Qc ∧
  (Q2Qc (3 # 4) * Qc_of_Z 4 ≤ Qc_of_Z (Z.of_nat (S 5)))%Qc.
Proof.
  destruct (asynchronous_spreading_one_per_event by_index_async cycle4 0%Qc
              (Q2Qc (3 # 4)) 0 4) as (_ & _ & Hexact & Hfast).
  split.
  - eapply (Hexact exact_threshold_three_quarters 5%nat).
    vm_compute. reflexivity.
  - eapply (Hfast exact_threshold_three_quarters 5%nat).
    vm_compute. reflexivity.
Defined.

(** ** X5 and X6: the pending events *)

Lemma pending_pop h ev h' :
  heappop h = Ok (ev, h') → pending h ≡ₚ ev.2 :: pending h'.
Proof.
  intros (_ & _ & Hperm)%heappop_Ok. unfold pending. by rewrite Hperm.
Qed.

Lemma async_step_pending arnd nl p ec st st' :
  pending st.2 ≡ₚ elements st.1 →
  async_step arnd nl p ec st = Next st' →
  pending st'.2 ≡ₚ elements st'.1.
Proof.
  destruct st as [infected h]. cbn [fst snd]. intros Hinv. unfold async_step.
  destruct (heappop h) as [[ev h']|] eqn:Hpop; [|done].
  apply pending_pop in Hpop. rewrite Hpop in Hinv.
  destruct (async_push _ _ _ _ _) as [[infected' fresh]|] eqn:Hp; [|done].
  intros (_ & -> & ->)%async_finish_Next. cbn [fst snd].
  apply async_push_cases in Hp as [[-> ->]|(nb & c & _ & _ & -> & ->)].
  - exact Hinv.
  - case_bool_decide as Hc.
    + rewrite elements_union_singleton by done.
      unfold pending in *. cbn [fmap list_fmap snd again]. by f_equiv.
    + replace ({[c]} ∪ infected) with infected; [exact Hinv|].
      symmetry. apply subseteq_union_1_L. by apply singleton_subseteq_l.
Qed.

(** X5.  In the exact asynchronous estimator every infected node has
    exactly one pending event, at every iteration: the nodes of the events
    in the heap are the elements of the infected set, each once.  The heap
    is therefore never empty when it is popped. *)
Theorem one_pending_event_per_infected_node arnd nl p ec s n st :
  iterate (async_step arnd nl p ec) n (async_init arnd s) = Some st →
  pending st.2 ≡ₚ elements st.1 ∧
  length st.2 = size st.1 ∧
  ∃ ev h', heappop st.2 = Ok (ev, h').
Proof.
  intros Hit.
  assert (pending st.2 ≡ₚ elements st.1) as Hinv.
  { eapply (iterate_invariant _ (λ st, pending st.2 ≡ₚ elements st.1));
      [|..|exact Hit].
    - intros a b. apply async_step_pending.
    - unfold async_init, pending, PushAsynchronousEvent, heappush.
      cbn [fst snd fmap list_fmap]. by rewrite elements_singleton. }
  assert (length st.2 = size st.1) as Hlen.
  { unfold size, set_size. simpl. rewrite <- Hinv. unfold pending.
    by rewrite length_fmap. }
  split_and!; [done|done|].
  assert (s ∈ st.1) as Hs.
  { eapply (iterate_invariant _ (λ st, s ∈ st.1)); [|..|exact Hit].
    - intros a b Ha Hstep. by apply (async_step_grows _ _ _ _ _ _ Hstep).
    - by apply elem_of_singleton. }
  apply heappop_nonempty. intros Hnil. rewrite Hnil in Hlen. simpl in Hlen.
  apply size_pos_of_elem in Hs. lia.
Qed.

Lemma one_pending_event_per_infected_node_witness :
  ∃ st,
    iterate (async_step by_index_async cycle4 0%Qc 1%Qc) 3
      (async_init by_index_async 0) = Some st ∧
    pending st.2 ≡ₚ elements st.1.
Proof.
  destruct (iterate (async_step by_index_async cycle4 0%Qc 1%Qc) 3
              (async_init by_index_async 0)) as [st|] eqn:Hit;
    [|by vm_compute in Hit].
  exists st. split; [done|].
  by destruct (one_pending_event_per_infected_node by_index_async cycle4
                 0%Qc 1%Qc 0 3 st Hit) as [H _].
Defined.

Lemma fast_async_step_pending arnd nl p ec n st st' :
  NoDup (pending st.2) ∧ (∀ v, v ∈ pending st.2 → v ∈ st.1) →
  fast_async_step arnd nl p ec n st = Next st' →
  NoDup (pending st'.2) ∧ (∀ v, v ∈ pending st'.2 → v ∈ st'.1).
Proof.
  destruct st as [infected h]. cbn [fst snd]. intros [Hnd Hin].
  unfold fast_async_step.
  destruct (heappop h) as [[ev h']|] eqn:Hpop; [|done].
  apply pending_pop in Hpop.
  rewrite Hpop in Hnd. setoid_rewrite Hpop in Hin.
  apply list.NoDup_cons in Hnd as [Hev Hnd'].
  destruct (py_getitem nl ev.2) as [nb|]; [|done].
  destruct (issubset nb infected).
  { intros [= <-]. cbn [fst snd]. split; [done|].
    intros v Hv. apply Hin. by right. }
  destruct (async_push _ _ _ _ _) as [[infected' fresh]|] eqn:Hp; [|done].
  intros (_ & -> & ->)%async_finish_Next. cbn [fst snd].
  apply async_push_cases in Hp as [[-> ->]|(nb' & c & _ & _ & -> & ->)].
  - split; [by apply list.NoDup_cons|done].
  - case_bool_decide as Hc.
    + unfold pending in *. cbn [fmap list_fmap snd again]. split.
      * apply list.NoDup_cons. split; [|by apply list.NoDup_cons].
        intros Hc'. apply Hc, Hin. exact Hc'.
      * intros v [->|Hv]%elem_of_cons.
        -- apply elem_of_union. left. by apply elem_of_singleton.
        -- apply elem_of_union. right. by apply Hin.
    + split; [by apply list.NoDup_cons|].
      intros v Hv. apply elem_of_union. right. by apply Hin.
Qed.

(** X6.  In the fast asynchronous estimator a node never has two pending
    events, and only infected nodes have one: the heap holds at most as many
    events as there are infected nodes. *)
Theorem fast_pending_events_distinct arnd nl p ec s N n st :
  iterate (fast_async_step arnd nl p ec N) n (async_init arnd s) = Some st →
  NoDup (pending st.2) ∧ (∀ e, e ∈ st.2 → e.2 ∈ st.1) ∧
  (length st.2 ≤ size st.1)%nat.
Proof.
  intros Hit.
  assert (NoDup (pending st.2) ∧ (∀ v, v ∈ pending st.2 → v ∈ st.1))
    as [Hnd Hin].
  { eapply (iterate_invariant _
              (λ st, NoDup (pending st.2) ∧ ∀ v, v ∈ pending st.2 → v ∈ st.1));
      [|..|exact Hit].
    - intros a b. apply fast_async_step_pending.
    - unfold async_init, pending, PushAsynchronousEvent, heappush.
      cbn [fst snd fmap list_fmap]. split.
      + apply NoDup_singleton.
      + intros v ->%list_elem_of_singleton. by apply elem_of_singleton. }
  split_and!; [done| |].
  - intros e He. apply Hin. unfold pending. by apply list_elem_of_fmap_2.
  - unfold size, set_size. simpl.
    replace (length st.2) with (length (pending st.2))
      by (unfold pending; by rewrite length_fmap).
    apply submseteq_length, NoDup_submseteq; [done|].
    intros v Hv. apply elem_of_elements. by apply Hin.
Qed.

Lemma fast_pending_events_distinct_witness :
  ∃ st,
    iterate (fast_async_step by_index_async cycle4 0%Qc 1%Qc 4) 3
      (async_init by_index_async 0) = Some st ∧
    NoDup (pending st.2).
Proof.
  destruct (iterate (fast_async_step by_index_async cycle4 0%Qc 1%Qc 4) 3
              (async_init by_index_async 0)) as [st|] eqn:Hit;
    [|by vm_compute in Hit].
  exists st. split; [done|].
  by destruct (fast_pending_events_distinct by_index_async cycle4
                 0%Qc 1%Qc 0 4 3 st Hit) as [H _].
Defined.

(** ** X7: simulated time does not go back *)

Section Times.
Context (arnd : async_source) (nl : list (list Z)) (p ec : Qc).
Hypothesis self_nonneg : ∀ ev, (0 ≤ log_self arnd ev)%Qc.
Hypothesis chosen_nonneg : ∀ ev, (0 ≤ log_chosen arnd ev)%Qc.

Lemma later_sample (time x : Qc) :
  (0 ≤ x)%Qc → (time ≤ time + PoissonSample x 1)%Qc.
Proof.
  intros Hx. unfold PoissonSample. rewrite (right_id 1%Qc Qcdiv).
  rewrite <- (Qcplus_0_r time) at 1. by apply Qcplus_le_mono_l.
Qed.

Lemma async_finish_times n ev h pushed st' :
  (∀ e, e ∈ h → (ev.1 ≤ e.1)%Qc) →
  async_finish arnd ec n ev h pushed = Next st' →
  ∀ e, e ∈ st'.2 → (ev.1 ≤ e.1)%Qc.
Proof.
  intros Hh (_ & _ & ->)%async_finish_Next.
  assert (∀ e, e ∈ again arnd ev :: h → (ev.1 ≤ e.1)%Qc) as Hrest.
  { intros e [->|He]%elem_of_cons; [|by apply Hh].
    unfold again. cbn [fst]. by apply later_sample. }
  destruct pushed.2 as [c|]; [|done].
  intros e [->|He]%elem_of_cons; [|by apply Hrest].
  cbn [fst]. by apply later_sample.
Qed.

Lemma heappop_times h ev h' :
  heappop h = Ok (ev, h') → ∀ e, e ∈ h' → (ev.1 ≤ e.1)%Qc.
Proof.
  intros (_ & Hle & Hperm)%heappop_Ok e He.
  apply event_le_time, Hle. rewrite Hperm. by right.
Qed.

Lemma async_step_times st st' ev h' :
  heappop st.2 = Ok (ev, h') →
  async_step arnd nl p ec st = Next st' →
  ∀ e, e ∈ st'.2 → (ev.1 ≤ e.1)%Qc.
Proof.
  destruct st as [infected h]. cbn [snd]. intros Hpop. unfold async_step.
  rewrite Hpop.
  destruct (async_push _ _ _ _ _) as [pushed|]; [|done].
  apply async_finish_times. by eapply heappop_times.
Qed.

Lemma fast_async_step_times n st st' ev h' :
  heappop st.2 = Ok (ev, h') →
  fast_async_step arnd nl p ec n st = Next st' →
  ∀ e, e ∈ st'.2 → (ev.1 ≤ e.1)%Qc.
Proof.
  destruct st as [infected h]. cbn [snd]. intros Hpop.
  unfold fast_async_step. rewrite Hpop.
  destruct (py_getitem nl ev.2) as [nb|]; [|done].
  destruct (issubset nb infected).
  { intros [= <-]. cbn [snd]. by eapply heappop_times. }
  destruct (async_push _ _ _ _ _) as [pushed|]; [|done].
  apply async_finish_times. by eapply heappop_times.
Qed.

Lemma not_before_preserved (step : gset Z * list event
                                   → step_result (gset Z * list event) Qc)
    (t0 : Qc) :
  (∀ st st' ev h', heappop st.2 = Ok (ev, h') → step st = Next st' →
                   ∀ e, e ∈ st'.2 → (ev.1 ≤ e.1)%Qc) →
  (∀ st st', step st = Next st' → ∃ ev h', heappop st.2 = Ok (ev, h')) →
  ∀ st st', (∀ e, e ∈ st.2 → (t0 ≤ e.1)%Qc) → step st = Next st' →
            ∀ e, e ∈ st'.2 → (t0 ≤ e.1)%Qc.
Proof.
  intros Htimes Hpop st st' Hst Hstep e He.
  destruct (Hpop _ _ Hstep) as (ev & h' & Hev).
  eapply Qcle_trans; [|by eapply Htimes].
  apply Hst. by apply heappop_Ok in Hev as (? & _).
Qed.
End Times.

(** X7.  When the inter-arrival samples are not negative, simulated time
    does not go back in either asynchronous estimator: the event popped by
    an iteration is not earlier than the one popped by the iteration before,
    and a returned time is not earlier than the first scheduled event. *)
Theorem simulated_time_is_monotone arnd nl p ec s N :
  (∀ ev, (0 ≤ log_self arnd ev)%Qc) →
  (∀ ev, (0 ≤ log_chosen arnd ev)%Qc) →
  (∀ st st' ev h ev' h',
     heappop st.2 = Ok (ev, h) →
     async_step arnd nl p ec st = Next st' →
     heappop st'.2 = Ok (ev', h') → (ev.1 ≤ ev'.1)%Qc) ∧
  (∀ st st' ev h ev' h',
     heappop st.2 = Ok (ev, h) →
     fast_async_step arnd nl p ec N st = Next st' →
     heappop st'.2 = Ok (ev', h') → (ev.1 ≤ ev'.1)%Qc) ∧
  (∀ fuel time,
     EstimateAsynchronousGossipTime arnd nl p ec fuel s N = Returned time →
     (0 + PoissonSample (log_first arnd) 1 ≤ time)%Qc) ∧
  (∀ fuel time,
     FastEstimateAsynchronousGossipTime arnd nl p ec fuel s N
     = Returned time →
     (0 + PoissonSample (log_first arnd) 1 ≤ time)%Qc).
Proof.
  intros Hself Hchosen.
  set (t0 := (0 + PoissonSample (log_first arnd) 1)%Qc).
  assert (Hinit : ∀ e, e ∈ (async_init arnd s).2 → (t0 ≤ e.1)%Qc).
  { intros e ->%list_elem_of_singleton. apply Qcle_refl. }
  split_and!.
  - intros st st' ev h ev' h' Hpop Hstep Hpop'.
    eapply (async_step_times arnd nl p ec Hself Hchosen); [done|done|].
    by apply heappop_Ok in Hpop' as (? & _).
  - intros st st' ev h ev' h' Hpop Hstep Hpop'.
    eapply (fast_async_step_times arnd nl p ec Hself Hchosen); [done|done|].
    by apply heappop_Ok in Hpop' as (? & _).
  - intros fuel time Hrun.
    apply (run_Returned_invariant _ (λ st, ∀ e, e ∈ st.2 → (t0 ≤ e.1)%Qc))
      in Hrun as (k & [infected h] & _ & _ & Hinv & Hdone); [| |done].
    + unfold async_step in Hdone.
      destruct (heappop h) as [[ev h']|] eqn:Hpop; [|done].
      destruct (async_push _ _ _ _ _) as [pushed|]; [|done].
      apply async_finish_Done in Hdone as [_ ->].
      apply Hinv. by apply heappop_Ok in Hpop as (? & _).
    + apply not_before_preserved.
      * apply (async_step_times arnd nl p ec Hself Hchosen).
      * intros [infected h] st'. unfold async_step. cbn [snd].
        destruct (heappop h) as [[ev h']|]; [by eauto|done].
  - intros fuel time Hrun.
    apply (run_Returned_invariant _ (λ st, ∀ e, e ∈ st.2 → (t0 ≤ e.1)%Qc))
      in Hrun as (k & [infected h] & _ & _ & Hinv & Hdone); [| |done].
    + unfold fast_async_step in Hdone.
      destruct (heappop h) as [[ev h']|] eqn:Hpop; [|done].
      destruct (py_getitem nl ev.2) as [nb|]; [|done].
      destruct (issubset nb infected); [done|].
      destruct (async_push _ _ _ _ _) as [pushed|]; [|done].
      apply async_finish_Done in Hdone as [_ ->].
      apply Hinv. by apply heappop_Ok in Hpop as (? & _).
    + apply not_before_preserved.
      * apply (fast_async_step_times arnd nl p ec Hself Hchosen).
      * intros [infected h] st'. unfold fast_async_step. cbn [snd].
        destruct (heappop h) as [[ev h']|]; [by eauto|done].
Qed.

Lemma simulated_time_is_monotone_witness :
  (0 + PoissonSample (log_first by_index_async) 1 ≤ 1 + 1)%Qc.
Proof.
  destruct (simulated_time_is_monotone by_index_async cycle4 0%Qc
              (Q2Qc (3 # 4)) 0 4) as (_ & _ & H & _).
  - intros ev. by vm_compute.
  - intros ev. by vm_compute.
  - apply (H 5%nat). by vm_compute.
Defined.

(** ** X9: the useful set *)

Lemma fast_sync_step_frontier walk rnd nl p ec st st' :
  enumerates walk → well_formed nl = true →
  frontier_inv nl (fs_infected st) (fs_useful st) →
  fast_sync_step walk rnd nl p ec st = Next st' →
  frontier_inv nl (fs_infected st') (fs_useful st').
Proof.
  intros Hw Hwf Hinv. destruct st as [t infected useful]. simpl in Hinv.
  destruct (sync_steps_agree walk walk rnd nl p ec Hw Hw Hwf t _ _ Hinv)
    as (infected' & _ & _ & useful' & Hinv' & ->).
  destruct (reached _ _ _); [done|]. by intros [= <-].
Qed.

(** X9.  At every round boundary of the fast synchronous estimator the
    useful set holds only infected nodes.  On a topology whose neighbour
    lists are all non-empty and hold only valid indices, every infected node
    that is not in the useful set has all its neighbours infected: leaving it
    out of the walk loses no infection. *)
Theorem useful_set_invariant walk rnd nl p ec s n st :
  enumerates walk →
  iterate (fast_sync_step walk rnd nl p ec) n (FastState O {[s]} {[s]})
  = Some st →
  fs_useful st ⊆ fs_infected st ∧
  (well_formed nl = true → in_range nl s = true →
   ∀ v, v ∈ fs_infected st → v ∉ fs_useful st →
        saturated nl v (fs_infected st)).
Proof.
  intros Hw Hit. split.
  - eapply (iterate_invariant _
              (λ st, spread nl s (fs_infected st)
                     ∧ fs_useful st ⊆ fs_infected st)); [|..|exact Hit].
    + intros a b. by apply fast_sync_step_spread.
    + split; [apply spread_source|done].
  - intros Hwf Hs.
    eapply (iterate_invariant _
              (λ st, frontier_inv nl (fs_infected st) (fs_useful st)));
      [|..|exact Hit].
    + intros a b. by apply fast_sync_step_frontier.
    + by apply frontier_inv_init.
Qed.

Lemma useful_set_invariant_witness :
  ∃ st,
    iterate (fast_sync_step walk_elements first_neighbour path4 0%Qc 1%Qc) 2
      (FastState O {[0]} {[0]}) = Some st ∧
    fs_useful st ⊆ fs_infected st ∧
    ∀ v, v ∈ fs_infected st → v ∉ fs_useful st →
         saturated path4 v (fs_infected st).
Proof.
  exists (FastState 2 {[0; 1]} {[1]}).
  assert (iterate (fast_sync_step walk_elements first_neighbour path4
                     0%Qc 1%Qc) 2 (FastState O {[0]} {[0]})
          = Some (FastState 2 {[0; 1]} {[1]})) as Hit by by vm_compute.
  split; [exact Hit|].
  destruct (useful_set_invariant walk_elements first_neighbour path4 0%Qc
              1%Qc 0 2 _ walk_elements_enumerates Hit) as [H1 H2].
  split; [exact H1|]. apply H2; by vm_compute.
Defined.

(** ** X10: where the exceptions of the exact estimators come from *)

Lemma np_random_choice_empty a r e :
  np_random_choice a r = Err e → e = ValueError ∧ a = [].
Proof.
  intros He. split.
  - unfold np_random_choice in He. by destruct (a !! _); simplify_eq.
  - destruct a as [|x a]; [done|].
    destruct (np_random_choice_nonempty (x :: a) r) as (c & Hc & _); [done|].
    congruence.
Qed.

Lemma getitem_then_choice_Err nl v r e :
  (nb ← py_getitem nl v; np_random_choice nb r) = Err e →
  (e = IndexError ∧ in_range nl v = false) ∨
  (e = ValueError ∧ py_getitem nl v = Ok []).
Proof.
  destruct (py_getitem nl v) as [nb|e'] eqn:Hnb; simpl.
  - intros [-> ->]%np_random_choice_empty. by right.
  - intros [= ->]. left. apply py_getitem_Err in Hnb as [-> Hout].
    split; [done|]. destruct (in_range nl v) eqn:E; [|done].
    by apply in_range_spec in E.
Qed.

Lemma push_attempt_Err rnd nl p t v e :
  push_attempt rnd nl p t v = Err e →
  (p ≤ rand_at rnd t v)%Qc ∧
  ((e = IndexError ∧ in_range nl v = false) ∨
   (e = ValueError ∧ py_getitem nl v = Ok [])).
Proof.
  unfold push_attempt. case_bool_decide; [|done]. intros He.
  split; [done|]. apply (getitem_then_choice_Err nl v (choice_at rnd t v)).
  destruct (py_getitem nl v) as [nb|]; simpl in *;
    [|by injection He as ->].
  destruct (np_random_choice nb _); simpl in *; [done|by injection He as ->].
Qed.

Lemma async_push_Err rnd nl p ev infected e :
  async_push rnd nl p ev infected = Err e →
  (p ≤ rand_ev rnd ev)%Qc ∧
  ((e = IndexError ∧ in_range nl ev.2 = false) ∨
   (e = ValueError ∧ py_getitem nl ev.2 = Ok [])).
Proof.
  unfold async_push. case_bool_decide; [|done]. intros He.
  split; [done|]. apply (getitem_then_choice_Err nl ev.2 (choice_ev rnd ev)).
  destruct (py_getitem nl ev.2) as [nb|]; simpl in *;
    [|by injection He as ->].
  destruct (np_random_choice nb _); simpl in *; [done|by injection He as ->].
Qed.

Lemma sync_for_Err rnd nl p t nodes newly e :
  sync_for rnd nl p t nodes newly = Err e →
  ∃ v, v ∈ nodes ∧ push_attempt rnd nl p t v = Err e.
Proof.
  revert newly. induction nodes as [|v nodes IH]; intros newly; simpl;
    [done|].
  destruct (push_attempt rnd nl p t v) as [[c|]|e'] eqn:Hv; simpl.
  - intros (w & Hw & He)%IH. exists w. split; [by right|done].
  - intros (w & Hw & He)%IH. exists w. split; [by right|done].
  - intros [= ->]. exists v. split; [left|done].
Qed.

Lemma async_heap_never_empty arnd nl p ec s n st :
  iterate (async_step arnd nl p ec) n (async_init arnd s) = Some st →
  st.2 ≠ [] ∧ ∀ e, e ∈ st.2 → e.2 ∈ st.1.
Proof.
  intros Hit.
  assert (pending st.2 ≡ₚ elements st.1 ∧ s ∈ st.1) as [Hinv Hs].
  { eapply (iterate_invariant _
              (λ st, pending st.2 ≡ₚ elements st.1 ∧ s ∈ st.1));
      [|..|exact Hit].
    - intros a b [Ha Hs] Hstep. split; [by eapply async_step_pending|].
      by apply (async_step_grows _ _ _ _ _ _ Hstep).
    - split; [|by apply elem_of_singleton].
      unfold async_init, pending, PushAsynchronousEvent, heappush.
      cbn [fst snd fmap list_fmap]. by rewrite elements_singleton. }
  split.
  - intros Hnil. rewrite Hnil in Hinv. symmetry in Hinv.
    apply Permutation_nil_r in Hinv. apply elements_empty_inv in Hinv.
    apply Hinv in Hs. by apply elem_of_empty in Hs.
  - intros e He. apply elem_of_elements. rewrite <- Hinv.
    unfold pending. by apply list_elem_of_fmap_2.
Qed.

(** X10.  When the entries of the neighbour lists fit in 64-bit integers
    ([int64_entries]: [np.random.choice] then returns integers), an
    exception of an exact estimator always comes from the push attempt of an
    infected node whose failure draw let it push: it is [IndexError] when
    that node does not index [neighbor_list], and [ValueError] when its
    neighbour list is empty.  The exact asynchronous estimator in
    particular never pops an empty heap. *)
Theorem exact_failures_come_from_pushes walk rnd arnd nl p ec s N fuel e :
  enumerates walk → int64_entries nl = true →
  (EstimateSynchronousGossipTime walk rnd nl p ec fuel s N = Raised e →
   ∃ t infected v,
     (t < fuel)%nat ∧
     iterate (sync_step walk rnd nl p ec) t (O, {[s]}) = Some (t, infected) ∧
     v ∈ infected ∧ (p ≤ rand_at rnd t v)%Qc ∧
     ((e = IndexError ∧ in_range nl v = false) ∨
      (e = ValueError ∧ py_getitem nl v = Ok []))) ∧
  (EstimateAsynchronousGossipTime arnd nl p ec fuel s N = Raised e →
   ∃ n infected h ev h',
     (n < fuel)%nat ∧
     iterate (async_step arnd nl p ec) n (async_init arnd s)
     = Some (infected, h) ∧
     heappop h = Ok (ev, h') ∧ ev.2 ∈ infected ∧
     (p ≤ rand_ev arnd ev)%Qc ∧
     ((e = IndexError ∧ in_range nl ev.2 = false) ∨
      (e = ValueError ∧ py_getitem nl ev.2 = Ok []))).
Proof.
  intros Hw _. split.
  - intros Hrun.
    apply (run_Raised_invariant _ (λ _, True)) in Hrun
      as (n & [t infected] & Hn & Hit & _ & Hfail); [|done|done].
    pose proof (sync_iterate_counter _ _ _ _ _ _ _ _ Hit) as Ht.
    simpl in Ht. assert (t = n) as -> by lia.
    unfold sync_step in Hfail.
    destruct (sync_for _ _ _ _ _ _) as [newly|e'] eqn:Hfor.
    { by destruct (reached _ _ _). }
    injection Hfail as ->.
    apply sync_for_Err in Hfor as (v & Hv & Hp).
    apply (enumerates_elem_of _ _ _ _ Hw) in Hv.
    apply push_attempt_Err in Hp as [Hdraw Hwhy].
    by exists n, infected, v.
  - intros Hrun.
    apply (run_Raised_invariant _ (λ _, True)) in Hrun
      as (n & [infected h] & Hn & Hit & _ & Hfail); [|done|done].
    destruct (async_heap_never_empty _ _ _ _ _ _ _ Hit) as [Hne Hin].
    simpl in Hne, Hin.
    destruct (heappop_nonempty h Hne) as (ev & h' & Hpop).
    unfold async_step in Hfail. rewrite Hpop in Hfail.
    destruct (async_push _ _ _ _ _) as [pushed|e'] eqn:Hp.
    { unfold async_finish in Hfail. destruct pushed.
      by destruct (reached _ _ _). }
    injection Hfail as ->.
    apply async_push_Err in Hp as [Hdraw Hwhy].
    exists n, infected, h, ev, h'. split_and!; try done.
    apply Hin. by apply heappop_Ok in Hpop as (? & _).
Qed.

Lemma exact_failures_come_from_pushes_witness :
  ∃ t infected v,
    (t < 5)%nat ∧
    iterate (sync_step walk_elements by_index_sync [[]] 0%Qc (Q2Qc (9 # 10)))
      t (O, {[0]}) = Some (t, infected) ∧
    v ∈ infected ∧ (0 ≤ rand_at by_index_sync t v)%Qc ∧
    ((ValueError = IndexError ∧ in_range [[]] v = false) ∨
     (ValueError = ValueError ∧
      py_getitem ([[]] : list (list Z)) v = Ok [])).
Proof.
  destruct (exact_failures_come_from_pushes walk_elements by_index_sync
              by_index_async [[]] 0%Qc (Q2Qc (9 # 10)) 0 1 5 ValueError
              walk_elements_enumerates) as [H _]; [by vm_compute|].
  apply H. by vm_compute.
Defined.

(** ** X11: the fast estimators never raise [ValueError] *)

Lemma issubset_false_nonempty nb X : issubset nb X = false → nb ≠ [].
Proof.
  intros H ->. unfold issubset in H.
  rewrite bool_decide_eq_true_2 in H; [done|]. apply empty_subseteq.
Qed.

Lemma push_attempt_after_test rnd nl p t v nb X :
  py_getitem nl v = Ok nb → issubset nb X = false →
  ∃ r, push_attempt rnd nl p t v = Ok r.
Proof.
  intros Hnb Hne%issubset_false_nonempty. unfold push_attempt.
  case_bool_decide; [|by eauto]. rewrite Hnb. simpl.
  destruct (np_random_choice_nonempty nb (choice_at rnd t v) Hne)
    as (c & -> & _).
  simpl. eauto.
Qed.

Lemma async_push_after_test rnd nl p ev nb infected :
  py_getitem nl ev.2 = Ok nb → issubset nb infected = false →
  ∃ pushed, async_push rnd nl p ev infected = Ok pushed.
Proof.
  intros Hnb Hne%issubset_false_nonempty. unfold async_push.
  case_bool_decide; [|by eauto]. rewrite Hnb. simpl.
  destruct (np_random_choice_nonempty nb (choice_ev rnd ev) Hne)
    as (c & -> & _).
  simpl. eauto.
Qed.

Lemma fast_for_Err rnd nl p t nodes acc e :
  fast_for rnd nl p t nodes acc = Err e →
  e = IndexError ∧ ∃ v, v ∈ nodes ∧ in_range nl v = false.
Proof.
  revert acc. induction nodes as [|v nodes IH]; intros acc; simpl; [done|].
  destruct (py_getitem nl v) as [nb|e'] eqn:Hnb; simpl.
  - assert (∀ acc', fast_for rnd nl p t nodes acc' = Err e →
              e = IndexError ∧ ∃ w, w ∈ v :: nodes ∧ in_range nl w = false)
      as Hrest.
    { intros acc' (-> & w & Hw & Hout)%IH. split; [done|].
      exists w. split; [by right|done]. }
    destruct (issubset nb (acc_infected acc)) eqn:Hsub; [apply Hrest|].
    destruct (push_attempt_after_test rnd nl p t v nb _ Hnb Hsub)
      as [[c|] ->]; simpl; apply Hrest.
  - intros [= ->]. apply py_getitem_Err in Hnb as [-> Hout].
    split; [done|]. exists v. split; [left|].
    destruct (in_range nl v) eqn:E; [|done]. by apply in_range_spec in E.
Qed.



(** ** X12: a drained heap *)

Lemma fast_async_step_covered arnd nl p ec n st st' :
  (∀ v, v ∈ st.1 → v ∈ pending st.2 ∨ saturated nl v st.1) →
  fast_async_step arnd nl p ec n st = Next st' →
  ∀ v, v ∈ st'.1 → v ∈ pending st'.2 ∨ saturated nl v st'.1.
Proof.
  destruct st as [infected h]. cbn [fst snd]. intros Hcov.
  unfold fast_async_step.
  destruct (heappop h) as [[ev h']|] eqn:Hpop; [|done].
  apply pending_pop in Hpop. setoid_rewrite Hpop in Hcov.
  destruct (py_getitem nl ev.2) as [nb|] eqn:Hnb; [|done].
  destruct (issubset nb infected) eqn:Hsub.
  { intros [= <-]. cbn [fst snd].
    intros v [[->|Hv]%elem_of_cons|Hsat]%Hcov; [|by left|by right].
    right. by apply (issubset_saturated nl ev.2 nb). }
  destruct (async_push _ _ _ _ _) as [[infected' fresh]|] eqn:Hp; [|done].
  intros (_ & -> & ->)%async_finish_Next. cbn [fst snd].
  pose proof (async_push_grows _ _ _ _ _ _ _ Hp) as Hgrow.
  assert (∀ v, v ∈ infected →
               v ∈ pending (again arnd ev :: h') ∨ saturated nl v infected')
    as Hold.
  { intros v [Hv|Hsat]%Hcov; [by left|].
    right. by eapply saturated_mono. }
  apply async_push_cases in Hp as [[-> ->]|(nb' & c & _ & _ & -> & ->)].
  - exact Hold.
  - case_bool_decide as Hc.
    + intros v [->%elem_of_singleton|Hv]%elem_of_union.
      * left. left.
      * destruct (Hold v Hv) as [?|?]; [left; by right|by right].
    + intros v [->%elem_of_singleton|Hv]%elem_of_union; by apply Hold.
Qed.

(** X12.  Whenever the fast asynchronous estimator has drained its heap
    (its next [heappop] raises [IndexError]), the infected set is exactly
    the set of nodes that are reached from the source: every event was
    dropped because nothing was left to infect. *)
Theorem drained_heap_means_component_infected arnd nl p ec s N n infected :
  iterate (fast_async_step arnd nl p ec N) n (async_init arnd s)
  = Some (infected, []) →
  fast_async_step arnd nl p ec N (infected, []) = Fail IndexError ∧
  ∀ v, reachable nl s v ↔ v ∈ infected.
Proof.
  intros Hit. split; [done|].
  assert (∀ v, v ∈ infected → saturated nl v infected) as Hsat.
  { assert (∀ v, v ∈ (async_init arnd s).1 →
              v ∈ pending (async_init arnd s).2
              ∨ saturated nl v (async_init arnd s).1) as Hinit.
    { unfold async_init, pending, PushAsynchronousEvent, heappush.
      cbn [fst snd fmap list_fmap].
      intros v ->%elem_of_singleton. left. left. }
    pose proof (iterate_invariant _
                  (λ st, ∀ v, v ∈ st.1 →
                              v ∈ pending st.2 ∨ saturated nl v st.1)
                  _ _ _ (fast_async_step_covered arnd nl p ec N) Hinit Hit)
      as Hcov.
    intros v Hv. destruct (Hcov v Hv) as [Hp|?]; [by inversion Hp|done]. }
  assert (spread nl s infected) as [Hs Hreach].
  { pose proof (iterate_invariant _
                  (λ st, spread nl s st.1 ∧ ∀ e, e ∈ st.2 → e.2 ∈ st.1)
                  _ _ _ (fast_async_step_spread arnd nl p ec s N)
                  (async_init_spread arnd nl s) Hit) as [H _].
    exact H. }
  intros v. split; [|by apply Hreach].
  induction 1 as [|u nb v _ IH Hnb Hv]; [done|].
  by eapply (Hsat u IH).
Qed.

Lemma drained_heap_means_component_infected_witness :
  (reachable two_pairs 0 1 ↔ 1 ∈ ({[0; 1]} : gset Z)) ∧
  (reachable two_pairs 0 2 ↔ 2 ∈ ({[0; 1]} : gset Z)).
Proof.
  destruct (drained_heap_means_component_infected by_index_async two_pairs
              0%Qc 1%Qc 0 4 3 {[0; 1]}) as [_ H]; [by vm_compute|].
  split; apply H.
Defined.
